(** * Blessify: the festival wish bot

    A shallow embedding of the bot's main file (the classification
    heuristics, the two cached generation adapters, the daily run and the
    slash-command handler) and the properties its specification states
    about them.

    Conventions of the embedding.
    - A JavaScript string is a [string] holding its UTF-8 encoding, one
      [ascii] per byte (strings with a lone surrogate have none and are
      left out).  [length] counts UTF-16 code units; the white space of
      [\s] and [trim] is that of ECMAScript, in its UTF-8 form; case
      mapping ([toLowerCase]) is that of the ASCII range, the range in
      which every keyword table of the program is written: letters
      outside it are left alone.
    - The two module-level objects [guildConfigs] and [wishCache] are
      finite maps with string keys, threaded through every function that
      reads or writes them, together with a trace of the calls made to the
      outside world (files, providers, Discord).
    - What the outside world answers (the text provider, the image
      provider, [Math.random], the channel lookup) is given by an
      environment that may look at the whole trace so far, so that two
      calls with the same arguments may be answered differently.
    - [Math.random()] is a rational number; the rounding of the product
      with the array length is not modelled.
    - The embed builder of discord.js throws on what it does not accept
      (a title of more than 256 characters, a description of more than
      4096, ...): what it accepts is given by the environment, and a
      throw in the loop of [runDaily] ends the run, as its catch-all
      does.  Writes to the two JSON files are taken to succeed.
    - A step ([runDaily], the interaction handler, a generation call) is
      run from its start to its end: the handling of an interaction
      while a daily run awaits a provider, or two daily runs in flight,
      are not modelled.
    - Console output is not part of the trace, so the [preview] flag of
      [runDaily], which only adds a log line, has no counterpart. *)

From Stdlib Require Import ZArith QArith Qround Ascii String List Bool Lia.
From stdpp Require Import base option list strings gmap fin_maps.

Local Open Scope string_scope.
Local Open Scope list_scope.

(** ** JavaScript strings *)

Module Js.

(** [c.toLowerCase()] on one byte: [A-Z] to [a-z]; the bytes of a
    character outside ASCII are left alone. *)
Definition lower_ascii (c : ascii) : ascii :=
  let n := N_of_ascii c in
  if ((65 <=? n) && (n <=? 90))%N then ascii_of_N (n + 32) else c.

(** [s.toLowerCase()] *)
Fixpoint toLowerCase (s : string) : string :=
  match s with
  | EmptyString => EmptyString
  | String c s' => String (lower_ascii c) (toLowerCase s')
  end.

(** [s.startsWith(key)] *)
Fixpoint startsWith (s key : string) {struct key} : bool :=
  match key, s with
  | EmptyString, _ => true
  | String _ _, EmptyString => false
  | String k key', String c s' => if Ascii.eqb k c then startsWith s' key' else false
  end.

(** [s.includes(key)]: [key] occurs somewhere in [s]. *)
Fixpoint includes (s key : string) : bool :=
  startsWith s key ||
  match s with
  | EmptyString => false
  | String _ s' => includes s' key
  end.

(** [/(k1|k2|...|kn)/.test(s)]: an unanchored group of literal
    alternatives matches when one of them occurs in [s]. *)
Definition test_alt (alts : list string) (s : string) : bool :=
  existsb (includes s) alts.

(** Truthiness of a string value: every string but the empty one. *)
Definition truthy (s : string) : bool :=
  match s with EmptyString => false | String _ _ => true end.

(** [arr.includes(x)] on an array of strings. *)
Definition arr_includes (arr : list string) (x : string) : bool :=
  existsb (String.eqb x) arr.

(** The UTF-16 code units a byte of UTF-8 stands for: one for the first
    byte of a character of one to three bytes, two for the first byte of
    a character of four, none for a continuation byte. *)
Definition units_of_byte (c : ascii) : nat :=
  let n := N_of_ascii c in
  if (n <? 128)%N then 1
  else if (n <? 192)%N then 0
  else if (n <? 240)%N then 1
  else 2.

(** [s.length] *)
Fixpoint length (s : string) : nat :=
  match s with
  | EmptyString => 0
  | String c s' => units_of_byte c + length s'
  end.

(** The string of the given bytes. *)
Definition utf8 (bytes : list N) : string :=
  fold_right (fun b s => String (ascii_of_N b) s) EmptyString bytes.

(** The white space of [\s] and of [trim] (WhiteSpace and LineTerminator
    of ECMAScript), each character in UTF-8. *)
Definition WHITE_SPACE : list string :=
  [ utf8 [9]; utf8 [10]; utf8 [11]; utf8 [12]; utf8 [13];  (* TAB LF VT FF CR *)
    utf8 [32];                                             (* SPACE *)
    utf8 [0xC2; 0xA0];                                     (* U+00A0 *)
    utf8 [0xE1; 0x9A; 0x80];                               (* U+1680 *)
    utf8 [0xE2; 0x80; 0x80]; utf8 [0xE2; 0x80; 0x81];      (* U+2000 U+2001 *)
    utf8 [0xE2; 0x80; 0x82]; utf8 [0xE2; 0x80; 0x83];      (* U+2002 U+2003 *)
    utf8 [0xE2; 0x80; 0x84]; utf8 [0xE2; 0x80; 0x85];      (* U+2004 U+2005 *)
    utf8 [0xE2; 0x80; 0x86]; utf8 [0xE2; 0x80; 0x87];      (* U+2006 U+2007 *)
    utf8 [0xE2; 0x80; 0x88]; utf8 [0xE2; 0x80; 0x89];      (* U+2008 U+2009 *)
    utf8 [0xE2; 0x80; 0x8A];                               (* U+200A *)
    utf8 [0xE2; 0x80; 0xA8]; utf8 [0xE2; 0x80; 0xA9];      (* U+2028 U+2029 *)
    utf8 [0xE2; 0x80; 0xAF];                               (* U+202F *)
    utf8 [0xE2; 0x81; 0x9F];                               (* U+205F *)
    utf8 [0xE3; 0x80; 0x80];                               (* U+3000 *)
    utf8 [0xEF; 0xBB; 0xBF] ]%N.                           (* U+FEFF *)

(** The number of bytes of the first of [chars] that [s] starts with; 0
    when it starts with none. *)
Definition match_length (chars : list string) (s : string) : nat :=
  match List.find (fun ch => startsWith s ch) chars with
  | Some ch => String.length ch
  | None => 0
  end.

(** The number of bytes of the white space character [s] starts with. *)
Definition space_length (s : string) : nat := match_length WHITE_SPACE s.

(** [s] without its leading white space; [skip] bytes of a white space
    character already recognised are still to be passed. *)
Fixpoint trimStart_from (s : string) (skip : nat) : string :=
  match s with
  | EmptyString => EmptyString
  | String c s' =>
      match skip with
      | S k => trimStart_from s' k
      | O =>
          match space_length s with
          | O => s
          | S k => trimStart_from s' k
          end
      end
  end.

Definition trimStart (s : string) : string := trimStart_from s 0.

(** [s] is made of white space only. *)
Fixpoint all_space_from (s : string) (skip : nat) : bool :=
  match s with
  | EmptyString => true
  | String c s' =>
      match skip with
      | S k => all_space_from s' k
      | O =>
          match space_length s with
          | O => false
          | S k => all_space_from s' k
          end
      end
  end.

(** [s] up to the white space it ends with. *)
Fixpoint trimEnd (s : string) : string :=
  match s with
  | EmptyString => EmptyString
  | String c s' =>
      if all_space_from s 0 then EmptyString else String c (trimEnd s')
  end.

(** [s.trim()] *)
Definition trim (s : string) : string := trimEnd (trimStart s).

(** [arr.join(sep)] *)
Fixpoint join (sep : string) (arr : list string) : string :=
  match arr with
  | [] => ""
  | [x] => x
  | x :: rest => x +:+ sep +:+ join sep rest
  end.

End Js.

(** ** Classification heuristics *)

Record Festival := {
  name : string;
  description : string;
  type : list string;
  primary_type : string
}.

Definition HINDU_KEYS : list string :=
  ["diwali"; "deepavali"; "navratri"; "holi"; "ram navami"; "krishna";
   "janmashtami"; "ganesh"; "chaturthi"; "mahashivratri"; "dussehra";
   "vijayadashami"; "pongal"; "makar sankranti"; "onam"; "raksha bandhan";
   "karva"; "karwa"].

Definition MUSLIM_KEYS : list string :=
  ["eid"; "fitr"; "adha"; "ramadan"; "ramzan"; "milad"; "mawlid"; "ashura";
   "muharram"; "shab-e-barat"].

Definition CHRISTIAN_KEYS : list string :=
  ["christ"; "christmas"; "easter"; "good friday"; "palm sunday"; "epiphany"].

(** [classifyFaith(name)]; the empty string is the absent result. *)
Definition classifyFaith (name : string) : string :=
  let n := Js.toLowerCase name in
  if Js.test_alt HINDU_KEYS n then "hindu"
  else if Js.test_alt MUSLIM_KEYS n then "muslim"
  else if Js.test_alt CHRISTIAN_KEYS n then "christian"
  else "".

Definition ALLOW : list string :=
  [ (* Hindu *)
    "diwali"; "deepavali"; "navratri"; "holi"; "dussehra"; "vijayadashami";
    "janmashtami"; "krishna janmashtami"; "ram navami"; "ganesh chaturthi";
    "maha shivaratri"; "mahashivratri"; "pongal"; "makar sankranti"; "onam";
    "raksha bandhan"; "karva chauth"; "karwa chauth";
    (* Muslim *)
    "eid al-fitr"; "eid-ul-fitr"; "eid al adha"; "eid-ul-adha"; "eid al-adha";
    "eid-e-milad"; "milad-un-nabi"; "mawlid an-nabi"; "ashura"; "muharram";
    "shab-e-barat";
    (* Christian *)
    "christmas"; "good friday"; "easter"; "palm sunday" ].

(** [isMajorFestival(item)] *)
Definition isMajorFestival (item : Festival) : bool :=
  let n := Js.toLowerCase (name item) in
  if existsb (fun key => Js.includes n key) ALLOW then true
  else
    let t := Js.toLowerCase (Js.join " " (type item)) in
    let p := Js.toLowerCase (primary_type item) in
    if Js.includes p "relig" && negb (Js.includes t "observance") then true
    else if Js.includes t "national holiday" then true
    else false.

(** ** Per-guild settings *)

Record Cfg := {
  channelId : option string;      (* [null] or a channel id *)
  lang : string;
  religions : list string;
  mention : string;               (* 'everyone' | 'here' | 'none' *)
  majorOnly : bool
}.

(** An entry of [guildConfigs] as it may come out of the JSON file: any of
    the fields may be missing. *)
Record Stored := {
  s_channelId : option (option string);
  s_lang : option string;
  s_religions : option (list string);
  s_mention : option string;
  s_majorOnly : option bool
}.

Definition defaultsFor : Cfg :=
  {| channelId := None;
     lang := "hinglish";
     religions := ["hindu"; "muslim"; "christian"];
     mention := "everyone";
     majorOnly := true |}.

(** The empty object [{}]. *)
Definition empty_obj : Stored :=
  {| s_channelId := None; s_lang := None; s_religions := None;
     s_mention := None; s_majorOnly := None |}.

(** [{ ...d, ...s }]: the fields [s] has win over those of [d]. *)
Definition spread (d : Cfg) (s : Stored) : Cfg :=
  {| channelId := default (channelId d) (s_channelId s);
     lang := default (lang d) (s_lang s);
     religions := default (religions d) (s_religions s);
     mention := default (mention d) (s_mention s);
     majorOnly := default (majorOnly d) (s_majorOnly s) |}.

(** A complete settings object, seen as an entry of [guildConfigs]. *)
Definition store_cfg (c : Cfg) : Stored :=
  {| s_channelId := Some (channelId c);
     s_lang := Some (lang c);
     s_religions := Some (religions c);
     s_mention := Some (mention c);
     s_majorOnly := Some (majorOnly c) |}.

(** [{ ...defaultsFor(), ...(guildConfigs[gid] || {}) }] *)
Definition cfgFor (configs : gmap string Stored) (gid : string) : Cfg :=
  spread defaultsFor (default empty_obj (configs !! gid)).

(** ** Discord objects *)

Inductive ChannelType :=
  | GuildText | DM | GuildVoice | GroupDM | GuildCategory
  | GuildAnnouncement | AnnouncementThread | PublicThread | PrivateThread
  | GuildStageVoice | GuildDirectory | GuildForum | GuildMedia.

Definition ChannelType_eqb (a b : ChannelType) : bool :=
  match a, b with
  | GuildText, GuildText | DM, DM | GuildVoice, GuildVoice
  | GroupDM, GroupDM | GuildCategory, GuildCategory
  | GuildAnnouncement, GuildAnnouncement
  | AnnouncementThread, AnnouncementThread
  | PublicThread, PublicThread | PrivateThread, PrivateThread
  | GuildStageVoice, GuildStageVoice | GuildDirectory, GuildDirectory
  | GuildForum, GuildForum | GuildMedia, GuildMedia => true
  | _, _ => false
  end.

Record Channel := {
  ch_id : string;
  ch_type : ChannelType;
  ch_name : string
}.

Record Guild := {
  g_id : string;
  g_name : string;
  g_channels : list Channel       (* [g.channels.cache], in iteration order *)
}.

Record Embed := {
  e_title : string;
  e_description : string;
  e_color : Z;
  e_footer : string;
  e_image : option string
}.

(** ** The image provider's answer *)

Record Src := { landscape : option string; large : option string }.

Record Photo := { width : Z; height : Z; src : option Src }.

Inductive PexelsResult :=
  | PexelsThrows                              (* transport or JSON failure *)
  | PexelsJson (photos : option (list Photo)). (* [res?.photos], when an array *)

Inductive GeminiResult :=
  | GeminiThrows
  | GeminiNoText                              (* [result?.response?.text()] undefined *)
  | GeminiText (text : string).

(** ** The world: the two in-memory objects and the trace of outside calls *)

Inductive Event :=
  | WriteConfigs (file : gmap string Stored)  (* [saveConfigs()] *)
  | WriteCache (file : gmap string string)    (* the write of [cacheSet] *)
  | CallGemini (prompt : string)
  | CallRandom
  | CallPexels (query per_page : string)
  | FetchChannel (guild id : string)
  | Send (guild channel : string) (content : option string) (embed : Embed)
  | Reply (content : string).

Record World := {
  guildConfigs : gmap string Stored;
  wishCache : gmap string string;
  trace : list Event
}.

Record Env := {
  TZ : string;
  genAI : option (list Event -> string -> GeminiResult); (* [null] without GOOGLE_API_KEY *)
  IMAGE_PROVIDER : string;
  PEXELS_KEY : string;
  pexels : list Event -> string -> PexelsResult;
  random : list Event -> Q;                   (* [Math.random()] *)
  channels_fetch : list Event -> string -> string -> option Channel;
                                              (* [None]: rejected, or no channel *)
  embed_accepted : Embed -> bool              (* what [EmbedBuilder] does not throw on *)
}.

(** A small state monad over the world. *)
Definition M (A : Type) : Type := World -> A * World.

Definition ret {A} (a : A) : M A := fun w => (a, w).

Definition bind {A B} (m : M A) (k : A -> M B) : M B :=
  fun w => let (a, w') := m w in k a w'.

Notation "'let!' x ':=' m 'in' k" := (bind m (fun x => k))
  (at level 10, x name, m at level 100, k at level 200).
Notation "m ;;; k" := (bind m (fun _ => k))
  (at level 100, right associativity).

Definition emit (e : Event) : M unit :=
  fun w => (tt, {| guildConfigs := guildConfigs w;
                   wishCache := wishCache w;
                   trace := trace w ++ [e] |}).

Definition get_trace : M (list Event) := fun w => (trace w, w).

(** How a piece of a loop ends: at its end, or by a throw that nothing in
    the loop catches. *)
Inductive Outcome := Completed | Threw.

(** [for (const x of l) body(x)]: a throw of the body leaves the loop. *)
Fixpoint forEach {A} (l : list A) (body : A -> M Outcome) : M Outcome :=
  match l with
  | [] => ret Completed
  | x :: l' =>
      let! outcome := body x in
      match outcome with
      | Completed => forEach l' body
      | Threw => ret Threw
      end
  end.

(** [saveConfigs()] *)
Definition saveConfigs : M unit :=
  fun w => emit (WriteConfigs (guildConfigs w)) w.

(** [guildConfigs[gid] = s] *)
Definition setConfig (gid : string) (s : Stored) : M unit :=
  fun w => (tt, {| guildConfigs := <[gid := s]> (guildConfigs w);
                   wishCache := wishCache w;
                   trace := trace w |}).

Definition getConfigs : M (gmap string Stored) := fun w => (guildConfigs w, w).

(** ** The generation cache *)

Definition cacheKey (dateISO label : string) : string :=
  dateISO +:+ "|" +:+ label.

Definition cacheGet (k : string) : M (option string) :=
  fun w => (wishCache w !! k, w).

Definition cacheSet (k v : string) : M unit :=
  fun w =>
    let c := <[k := v]> (wishCache w) in
    (tt, {| guildConfigs := guildConfigs w;
            wishCache := c;
            trace := trace w ++ [WriteCache c] |}).

(** Truthiness of what [cacheGet] returns. *)
Definition truthy_opt (o : option string) : bool :=
  match o with Some s => Js.truthy s | None => false end.

(** [a || b] on possibly undefined strings. *)
Definition or_else (a b : option string) : option string :=
  if truthy_opt a then a else b.

(** ** Text generation *)

Definition dquote : string := String (ascii_of_nat 34) "".

(** [aiWishPrompt({ festivalName, faith })] *)
Definition aiWishPrompt (festivalName faith : string) : string :=
  "You are a friendly Indian community bot writing short festival wishes.

Constraints:
- Language: Hinglish (simple Hindi + English).
- Length target: about 300–400 characters (one short paragraph).
- Tone: warm, inclusive, natural; not robotic; no proselytizing.
- Emojis: 1–3 total (e.g., 🪔🎉🌙🎄) placed naturally.
- Theme: celebrate " +:+ festivalName +:+ ", wish peace, health, prosperity, unity.
- Audience: gaming/creator community, multi-faith, family-friendly.
- Output: plain text only.

Write a unique wish for " +:+ dquote +:+ festivalName +:+ dquote +:+ " ("
  +:+ (if Js.truthy faith then faith else "India, multi-faith") +:+ ").".

(** The template of the safe fallback. *)
Definition fallback (name : string) : string :=
  "✨ " +:+ name +:+ " ki hardik shubhkamnayein! Dil mein khushi, ghar mein barkat aur sabke liye sehat-sukoon bane rahe. Aaj ke din hum sab milkar positivity, pyaar aur unity ko celebrate karein. 🌟".

(** [model.generateContent(prompt)], then [result?.response?.text()] *)
Definition generateContent (model : list Event -> string -> GeminiResult)
    (prompt : string) : M GeminiResult :=
  let! tr := get_trace in
  emit (CallGemini prompt) ;;;
  ret (model tr prompt).

(** The guard of [makeAIWish] on what the provider returned: the trimmed
    text when it is accepted. *)
Definition accepted (r : GeminiResult) : option string :=
  match r with
  | GeminiText raw =>
      let text := Js.trim raw in
      if Js.truthy text && (220 <=? Js.length text)%nat then Some text
      else None
  | GeminiNoText | GeminiThrows => None
  end.

(** [makeAIWish(dateISO, name, faith)] *)
Definition makeAIWish (env : Env) (dateISO name faith : string) : M string :=
  let key := cacheKey dateISO ("wish:" +:+ name) in
  let! cached := cacheGet key in
  if truthy_opt cached then ret (default "" cached)
  else
    let useFallback := (cacheSet key (fallback name) ;;; ret (fallback name)) in
    match genAI env with
    | Some model =>
        let! result := generateContent model (aiWishPrompt name faith) in
        match accepted result with
        | Some text => cacheSet key text ;;; ret text
        | None => useFallback
        end
    | None => useFallback
    end.

(** ** Image search *)

Definition base (name faith : string) : option (list string) :=
  if String.eqb faith "hindu" then
    Some [name +:+ " celebration India";
          "diya lamps festival lights bokeh";
          "rangoli festive decor"]
  else if String.eqb faith "muslim" then
    Some [name +:+ " celebration crescent moon mosque lights";
          "eid lanterns (fanous) night sky";
          "henna hands festive lights"]
  else if String.eqb faith "christian" then
    Some [name +:+ " celebration church lights";
          "christmas tree warm lights ornaments";
          "candles star nativity festive"]
  else None.

(** [Math.floor(r * n)] *)
Definition floor_times (r : Q) (n : nat) : Z :=
  Qfloor (r * inject_Z (Z.of_nat n)).

(** [arr[i]] for an integer [i]: [undefined] out of range. *)
Definition at_index {A} (arr : list A) (i : Z) : option A :=
  if (i <? 0)%Z then None else arr !! Z.to_nat i.

(** [queryForImage(name, faith)]; [None] is [undefined]. *)
Definition queryForImage (env : Env) (name faith : string) : M (option string) :=
  let arr := default [name +:+ " festival India celebration"] (base name faith) in
  let! tr := get_trace in
  emit CallRandom ;;;
  ret (at_index arr (floor_times (random env tr) (length arr))).

(** [photos.find(p => p.width >= p.height) || photos[0]] *)
Definition pick_photo (photos : list Photo) : option Photo :=
  match List.find (fun p => (height p <=? width p)%Z) photos with
  | Some p => Some p
  | None => head photos
  end.

(** [pick?.src?.landscape || pick?.src?.large || ''] *)
Definition photo_url (pick : option Photo) : string :=
  let s := pick ≫= src in
  default "" (or_else (or_else (s ≫= landscape) (s ≫= large)) (Some "")).

(** [fetchPexelsImage(query)] *)
Definition fetchPexelsImage (env : Env) (query : string) : M string :=
  if negb (Js.truthy (PEXELS_KEY env)) then ret ""
  else
    let! tr := get_trace in
    emit (CallPexels query "10") ;;;
    match pexels env tr query with
    | PexelsThrows => ret ""
    | PexelsJson res =>
        let photos := default [] res in
        match photos with
        | [] => ret ""
        | _ => ret (photo_url (pick_photo photos))
        end
    end.

(** The text a possibly undefined query becomes as a search parameter. *)
Definition param_string (q : option string) : string := default "undefined" q.

(** [getFestivalImage(dateISO, name, faith)] *)
Definition getFestivalImage (env : Env) (dateISO name faith : string) : M string :=
  let key := cacheKey dateISO ("img:" +:+ name) in
  let! cached := cacheGet key in
  if truthy_opt cached then ret (default "" cached)
  else
    let! url :=
      (if String.eqb (IMAGE_PROVIDER env) "pexels" then
         let! query := queryForImage env name faith in
         fetchPexelsImage env (param_string query)
       else ret "") in
    (if Js.truthy url then cacheSet key url else ret tt) ;;;
    ret url.

(** ** Delivery *)

(** The embed [buildEmbed] hands to the builder; [dateStr] is
    [now.format('dddd, DD MMM YYYY')]. *)
Definition embedOf (festivalName faith wishText imageUrl dateStr : string) : Embed :=
  let color :=
    if String.eqb faith "hindu" then 0xF59E0B%Z
    else if String.eqb faith "muslim" then 0x10B981%Z
    else if String.eqb faith "christian" then 0x60A5FA%Z
    else 0xA78BFA%Z in
  {| e_title := festivalName +:+ " — Wishes";
     e_description := wishText;
     e_color := color;
     e_footer := "Auto-generated • " +:+ dateStr +:+ " • IST";
     e_image := if Js.truthy imageUrl then Some imageUrl else None |}.

(** [buildEmbed({ festivalName, faith, wishText, imageUrl, now })];
    [None] when one of the setters of the builder throws. *)
Definition buildEmbed (env : Env)
    (festivalName faith wishText imageUrl dateStr : string) : option Embed :=
  let embed := embedOf festivalName faith wishText imageUrl dateStr in
  if embed_accepted env embed then Some embed else None.

(** [resolveChannel(guild, channelId)] *)
Definition resolveChannel (env : Env) (guild : Guild) (channelId : option string)
    : M (option Channel) :=
  match channelId with
  | Some id =>
      if negb (Js.truthy id) then ret None
      else
        let! tr := get_trace in
        emit (FetchChannel (g_id guild) id) ;;;
        match channels_fetch env tr (g_id guild) id with
        | Some ch =>
            if negb (ChannelType_eqb (ch_type ch) GuildText) then ret None
            else ret (Some ch)
        | None => ret None
        end
  | None => ret None
  end.

(** The fall-back of the daily run: the first cached text channel named
    announcements or general. *)
Definition fallbackChannel (g : Guild) : option Channel :=
  List.find
    (fun c => ChannelType_eqb (ch_type c) GuildText &&
              Js.arr_includes ["announcements"; "general"] (Js.toLowerCase (ch_name c)))
    (g_channels g).

(** The channel the daily run posts to: the configured one when it
    resolves, else the fall-back; [None] makes the run skip the guild. *)
Definition findChannel (env : Env) (g : Guild) (channelId : option string)
    : M (option Channel) :=
  let! resolved := resolveChannel env g channelId in
  ret (match resolved with
       | Some ch => Some ch
       | None => fallbackChannel g
       end).

(** The predicate of [rawFestivals.filter(...)] in [runDaily]. *)
Definition keep (cfg : Cfg) (f : Festival) : bool :=
  let faith := classifyFaith (name f) in
  let faithOk := if Js.truthy faith then Js.arr_includes (religions cfg) faith else false in
  let majorOk := if majorOnly cfg then isMajorFestival f else true in
  faithOk && majorOk.

(** What [runDaily] reads off the clock: [now.format('YYYY-MM-DD')] and
    [now.format('dddd, DD MMM YYYY')]. *)
Record Now := { dateISO : string; dateStr : string }.

(** The body of the inner loop of [runDaily]: one festival, one channel. *)
Definition postFestival (env : Env) (now : Now) (g : Guild) (chan : Channel)
    (mentionText : string) (fest : Festival) : M Outcome :=
  let faith := classifyFaith (name fest) in
  let! wishText := makeAIWish env (dateISO now) (name fest) faith in
  let! imageUrl := getFestivalImage env (dateISO now) (name fest) faith in
  match buildEmbed env (name fest) faith wishText imageUrl (dateStr now) with
  | Some embed =>
      emit (Send (g_id g) (ch_id chan)
                 (if Js.truthy mentionText then Some mentionText else None) embed) ;;;
      ret Completed
  | None => ret Threw
  end.

(** The body of the outer loop of [runDaily]: one guild. *)
Definition runGuild (env : Env) (now : Now) (rawFestivals : list Festival)
    (g : Guild) : M Outcome :=
  let! configs := getConfigs in
  let cfg := cfgFor configs (g_id g) in
  let festivals := List.filter (keep cfg) rawFestivals in
  match festivals with
  | [] => ret Completed                                 (* continue *)
  | _ =>
      let! chan := findChannel env g (channelId cfg) in
      match chan with
      | None => ret Completed                           (* continue *)
      | Some chan =>
          let mentionText :=
            if String.eqb (mention cfg) "everyone" then "@everyone"
            else if String.eqb (mention cfg) "here" then "@here"
            else "" in
          let! outcome := forEach festivals (postFestival env now g chan mentionText) in
          match outcome with
          | Completed =>
              setConfig (g_id g) (store_cfg cfg) ;;;
              saveConfigs ;;;
              ret Completed
          | Threw => ret Threw
          end
      end
  end.

(** The loop of [runDaily] over the guilds. *)
Definition runGuilds (env : Env) (now : Now) (rawFestivals : list Festival)
    (guilds : list Guild) : M Outcome :=
  forEach guilds (runGuild env now rawFestivals).

(** [runDaily()], given the clock, the answer of [fetchCalendarific] and
    the guilds of [client.guilds.cache]; its catch-all only logs what the
    loop threw. *)
Definition runDaily (env : Env) (now : Now) (rawFestivals : list Festival)
    (guilds : list Guild) : M unit :=
  runGuilds env now rawFestivals guilds ;;;
  ret tt.

(** ** Slash commands *)

Inductive Command :=
  | setwisheschannel (channel : Channel)
  | setreligions (list_opt : string)
  | setmention (mention_opt : string)
  | setmajor (major_only : bool)
  | otherCommand (commandName : string).

Record Interaction := {
  isChatInputCommand : bool;
  guildId : option string;
  command : Command
}.

(** The characters of [[\s,]]: the comma and the white space. *)
Definition SEPARATORS : list string := "," :: Js.WHITE_SPACE.

(** The number of bytes of the separator [s] starts with; 0 for none. *)
Definition sep_length (s : string) : nat := Js.match_length SEPARATORS s.

(** [raw.split(/[\s,]+/)], reading [raw] from the left: [cur] is the piece
    being read, [in_run] tells whether the last character was a
    separator, and [skip] bytes of that separator are still to be
    passed. *)
Fixpoint split_go (raw cur : string) (in_run : bool) (skip : nat) : list string :=
  match raw with
  | EmptyString => [cur]
  | String c raw' =>
      match skip with
      | S k => split_go raw' cur in_run k
      | O =>
          match sep_length raw with
          | O => split_go raw' (cur +:+ String c "") false 0
          | S k =>
              if in_run then split_go raw' "" true k
              else cur :: split_go raw' "" true k
          end
      end
  end.

Definition split_list (raw : string) : list string := split_go raw "" false 0.

(** [[...new Set(parsed)]]: first occurrences, in order. *)
Fixpoint set_spread (seen parsed : list string) : list string :=
  match parsed with
  | [] => []
  | x :: rest =>
      if Js.arr_includes seen x then set_spread seen rest
      else x :: set_spread (x :: seen) rest
  end.

Definition allowed : list string := ["hindu"; "muslim"; "christian"].

(** The [parsed] of the setreligions branch. *)
Definition parse_religions (list_opt : string) : list string :=
  let raw := Js.toLowerCase list_opt in
  List.filter (fun s => Js.arr_includes allowed s)
    (List.map Js.trim (split_list raw)).

(** [guildConfigs[gid].field = v], as a change of the stored object. *)
Definition updateConfig (gid : string) (f : Stored -> Stored) : M unit :=
  fun w => (tt, {| guildConfigs := alter f gid (guildConfigs w);
                   wishCache := wishCache w;
                   trace := trace w |}).

Definition set_channelId (v : string) (s : Stored) : Stored :=
  {| s_channelId := Some (Some v); s_lang := s_lang s;
     s_religions := s_religions s; s_mention := s_mention s;
     s_majorOnly := s_majorOnly s |}.

Definition set_religions (v : list string) (s : Stored) : Stored :=
  {| s_channelId := s_channelId s; s_lang := s_lang s;
     s_religions := Some v; s_mention := s_mention s;
     s_majorOnly := s_majorOnly s |}.

Definition set_mention (v : string) (s : Stored) : Stored :=
  {| s_channelId := s_channelId s; s_lang := s_lang s;
     s_religions := s_religions s; s_mention := Some v;
     s_majorOnly := s_majorOnly s |}.

Definition set_majorOnly (v : bool) (s : Stored) : Stored :=
  {| s_channelId := s_channelId s; s_lang := s_lang s;
     s_religions := s_religions s; s_mention := s_mention s;
     s_majorOnly := Some v |}.

Definition REJECT_CHANNEL : string := "Please choose a text channel.".
Definition REJECT_RELIGIONS : string := "Use any of: hindu, muslim, christian".
Definition REJECT_MENTION : string := "Choose: everyone | here | none".

(** The branch of the handler for one command, after [guildConfigs[gid]]
    has been filled in. *)
Definition runCommand (env : Env) (gid : string) (c : Command) : M unit :=
  match c with
  | setwisheschannel channel =>
      if negb (existsb (ChannelType_eqb (ch_type channel))
                       [GuildText; PublicThread; PrivateThread])
      then emit (Reply REJECT_CHANNEL)
      else
        updateConfig gid (set_channelId (ch_id channel)) ;;;
        saveConfigs ;;;
        emit (Reply ("✅ Will post in <#" +:+ ch_id channel +:+ "> daily at **01:00 "
                     +:+ TZ env +:+ "**."))
  | setreligions list_opt =>
      let parsed := parse_religions list_opt in
      match parsed with
      | [] => emit (Reply REJECT_RELIGIONS)
      | _ =>
          updateConfig gid (set_religions (set_spread [] parsed)) ;;;
          saveConfigs ;;;
          let! configs := getConfigs in
          emit (Reply ("✅ Religions: " +:+
                       Js.join ", " (religions (cfgFor configs gid))))
      end
  | setmention mention_opt =>
      let m := Js.toLowerCase mention_opt in
      if negb (Js.arr_includes ["everyone"; "here"; "none"] m)
      then emit (Reply REJECT_MENTION)
      else
        updateConfig gid (set_mention m) ;;;
        saveConfigs ;;;
        emit (Reply ("✅ Mention: " +:+ m))
  | setmajor major_only =>
      updateConfig gid (set_majorOnly major_only) ;;;
      saveConfigs ;;;
      emit (Reply ("✅ Major-only filter: " +:+ (if major_only then "ON" else "OFF")))
  | otherCommand _ => ret tt
  end.

(** The [InteractionCreate] handler. *)
Definition onInteraction (env : Env) (interaction : Interaction) : M unit :=
  if negb (isChatInputCommand interaction) then ret tt
  else
    let gid := guildId interaction in
    if negb (truthy_opt gid) then ret tt
    else
      let gid := default "" gid in
      let! configs := getConfigs in
      setConfig gid (store_cfg (cfgFor configs gid)) ;;;
      runCommand env gid (command interaction).

(** * Properties *)

(** ** Strings *)

(** [key] occurs in [s]. *)
Definition occurs_in (key s : string) : Prop :=
  exists l r, s = l +:+ key +:+ r.

(** [s] contains one of the keywords of [keys]. *)
Definition matches (keys : list string) (s : string) : Prop :=
  exists key, In key keys /\ occurs_in key s.

Lemma startsWith_spec (s key : string) :
  Js.startsWith s key = true <-> exists r, s = key +:+ r.
Proof.
  revert s. induction key as [|k key IH]; intros s; simpl.
  - split; [intros _; by exists s | done].
  - destruct s as [|c s].
    + split; [done | intros [r Hr]; discriminate].
    + destruct (Ascii.eqb_spec k c) as [->|Hne].
      * rewrite IH. split; intros [r Hr]; exists r; [by rewrite Hr | by injection Hr].
      * split; [done | intros [r Hr]; injection Hr; intros; congruence].
Qed.

Lemma includes_spec (s key : string) :
  Js.includes s key = true <-> occurs_in key s.
Proof.
  unfold occurs_in. induction s as [|c s IH].
  - cbn [Js.includes]. rewrite orb_false_r, startsWith_spec. split.
    + intros [r Hr]. by exists "", r.
    + intros [l [r Hr]]. destruct l; [by exists r | discriminate].
  - cbn [Js.includes]. rewrite orb_true_iff, startsWith_spec, IH. split.
    + intros [[r Hr] | [l [r Hr]]].
      * by exists "", r.
      * exists (String c l), r. by rewrite Hr.
    + intros [l [r Hr]]. destruct l as [|c' l].
      * left. by exists r.
      * right. injection Hr as _ Hr. by exists l, r.
Qed.

Lemma test_alt_spec (keys : list string) (s : string) :
  Js.test_alt keys s = true <-> matches keys s.
Proof.
  unfold Js.test_alt, matches. rewrite existsb_exists.
  split; intros [k [Hin Hk]]; exists k; split; auto; by apply includes_spec.
Qed.

Lemma test_alt_false (keys : list string) (s : string) :
  Js.test_alt keys s = false <-> ~ matches keys s.
Proof.
  rewrite <- test_alt_spec. by destruct (Js.test_alt keys s); split.
Qed.

Lemma arr_includes_spec (arr : list string) (x : string) :
  Js.arr_includes arr x = true <-> In x arr.
Proof.
  unfold Js.arr_includes. rewrite existsb_exists. split.
  - intros [y [Hin Heq]]. apply String.eqb_eq in Heq. by subst.
  - intros Hin. exists x. split; [done | apply String.eqb_refl].
Qed.

Lemma truthy_spec (s : string) : Js.truthy s = true <-> s <> "".
Proof. by destruct s; simpl; split. Qed.

(** ** Classification *)

(** The four results of [classifyFaith], by the order of its tests. *)
Lemma classifyFaith_cases (name : string) :
  let n := Js.toLowerCase name in
  (matches HINDU_KEYS n /\ classifyFaith name = "hindu") \/
  (~ matches HINDU_KEYS n /\ matches MUSLIM_KEYS n /\
   classifyFaith name = "muslim") \/
  (~ matches HINDU_KEYS n /\ ~ matches MUSLIM_KEYS n /\
   matches CHRISTIAN_KEYS n /\ classifyFaith name = "christian") \/
  (~ matches HINDU_KEYS n /\ ~ matches MUSLIM_KEYS n /\
   ~ matches CHRISTIAN_KEYS n /\ classifyFaith name = "").
Proof.
  intros n. unfold classifyFaith. fold n.
  destruct (Js.test_alt HINDU_KEYS n) eqn:Hh.
  { left. split; [by apply test_alt_spec | done]. }
  apply test_alt_false in Hh.
  destruct (Js.test_alt MUSLIM_KEYS n) eqn:Hm.
  { right; left. split_and!; [done | by apply test_alt_spec | done]. }
  apply test_alt_false in Hm.
  destruct (Js.test_alt CHRISTIAN_KEYS n) eqn:Hc.
  { right; right; left. split_and!; [done | done | by apply test_alt_spec | done]. }
  apply test_alt_false in Hc.
  right; right; right. by split_and!.
Qed.

Example classifyFaith_samples :
  classifyFaith "Diwali/Deepavali" = "hindu" /\
  classifyFaith "Muharram/Ashura" = "muslim" /\
  classifyFaith "Good Friday" = "christian" /\
  classifyFaith "Republic Day" = "".
Proof. by split_and!. Qed.

(** C3, as the specification states it, fails: a name may match the
    keyword set of one category and be classified as another, which is
    tested first.  "Christmas Holiday" matches the Christian keywords and,
    through "holi", the Hindu ones. *)
Lemma classify_overlap_counterexample :
  matches CHRISTIAN_KEYS (Js.toLowerCase "Christmas Holiday") /\
  classifyFaith "Christmas Holiday" <> "christian".
Proof.
  split.
  - by apply test_alt_spec.
  - by vm_compute.
Qed.

(** C3 (amended): [classifyFaith] lower-cases the name and tests it
    against the keyword sets in the order hindu, muslim, christian; the
    result is the first category in that order whose keyword set the
    lower-cased name matches, and the absent result (the empty string)
    exactly when it matches none.  In particular a name that matches one
    set only is classified as that category. *)
Theorem classifyFaith_first_match (name : string) :
  let n := Js.toLowerCase name in
  (classifyFaith name = "hindu" <-> matches HINDU_KEYS n) /\
  (classifyFaith name = "muslim" <->
     ~ matches HINDU_KEYS n /\ matches MUSLIM_KEYS n) /\
  (classifyFaith name = "christian" <->
     ~ matches HINDU_KEYS n /\ ~ matches MUSLIM_KEYS n /\
     matches CHRISTIAN_KEYS n) /\
  (classifyFaith name = "" <->
     ~ matches HINDU_KEYS n /\ ~ matches MUSLIM_KEYS n /\
     ~ matches CHRISTIAN_KEYS n).
Proof.
  intros n.
  destruct (classifyFaith_cases name) as
    [[Hh ->] | [[Hh [Hm ->]] | [[Hh [Hm [Hc ->]]] | [Hh [Hm [Hc ->]]]]]];
    fold n in Hh |- *; try fold n in Hm; try fold n in Hc;
    repeat split; try done; try tauto; intros; try discriminate; tauto.
Qed.

(** C4: [isMajorFestival] answers true exactly when the lower-cased name
    contains an entry of the allow-list (whatever the other fields are),
    or the lower-cased primary type contains "relig" while the lower-cased
    type tags, joined by spaces, do not contain "observance", or those
    tags contain "national holiday"; with none of these signals it
    answers false. *)
Theorem isMajorFestival_signals (item : Festival) :
  let n := Js.toLowerCase (name item) in
  let t := Js.toLowerCase (Js.join " " (type item)) in
  let p := Js.toLowerCase (primary_type item) in
  let signal :=
    matches ALLOW n \/
    (occurs_in "relig" p /\ ~ occurs_in "observance" t) \/
    occurs_in "national holiday" t in
  (isMajorFestival item = true <-> signal) /\
  (isMajorFestival item = false <-> ~ signal).
Proof.
  intros n t p signal.
  assert (Htrue : isMajorFestival item = true <-> signal).
  { unfold isMajorFestival, signal. fold n t p.
    change (existsb (fun key => Js.includes n key) ALLOW) with (Js.test_alt ALLOW n).
    destruct (Js.test_alt ALLOW n) eqn:Ha.
    { apply test_alt_spec in Ha. tauto. }
    apply test_alt_false in Ha.
    destruct (Js.includes p "relig") eqn:Hp; simpl;
      destruct (Js.includes t "observance") eqn:Ho; simpl;
      destruct (Js.includes t "national holiday") eqn:Hn;
      try apply includes_spec in Hp; try apply includes_spec in Ho;
      try apply includes_spec in Hn;
      try (assert (~ occurs_in "relig" p)
             by (rewrite <- includes_spec; congruence));
      try (assert (~ occurs_in "observance" t)
             by (rewrite <- includes_spec; congruence));
      try (assert (~ occurs_in "national holiday" t)
             by (rewrite <- includes_spec; congruence));
      split; try done; tauto. }
  split; [done |].
  rewrite <- Htrue. by destruct (isMajorFestival item); split.
Qed.

(** An allow-listed name is major whatever its other fields say. *)
Example isMajor_allow_listed :
  isMajorFestival {| name := "Diwali/Deepavali"; description := "";
                     type := ["Observance"]; primary_type := "Observance" |} = true.
Proof. reflexivity. Qed.

Example isMajor_religious_not_observance :
  isMajorFestival {| name := "Guru Nanak Jayanti"; description := "";
                     type := ["Sikh"]; primary_type := "Religious holiday" |} = true
  /\ isMajorFestival {| name := "Guru Nanak Jayanti"; description := "";
                        type := ["Observance"; "Sikh"];
                        primary_type := "Religious holiday" |} = false.
Proof. split; reflexivity. Qed.

Example isMajor_national_holiday :
  isMajorFestival {| name := "Republic Day"; description := "";
                     type := ["National holiday"]; primary_type := "Public" |} = true.
Proof. reflexivity. Qed.

(** ** The filter of the daily run *)

Lemma keep_spec (cfg : Cfg) (f : Festival) :
  keep cfg f = true <->
  classifyFaith (name f) <> "" /\
  In (classifyFaith (name f)) (religions cfg) /\
  (majorOnly cfg = false \/ isMajorFestival f = true).
Proof.
  unfold keep. rewrite andb_true_iff.
  destruct (Js.truthy (classifyFaith (name f))) eqn:Ht.
  - apply truthy_spec in Ht. rewrite arr_includes_spec.
    destruct (majorOnly cfg); intuition congruence.
  - assert (classifyFaith (name f) = "") as ->
      by (destruct (classifyFaith (name f)); [done | discriminate]).
    intuition congruence.
Qed.

(** ** Programs that keep a relation between the worlds *)

(** [keeps R m]: whatever the world, running [m] leads to a world related
    to it by [R]. *)
Definition keeps {A} (R : relation World) (m : M A) : Prop :=
  forall w, R w (m w).2.

Section Keeps.
Context (R : relation World) `{!PreOrder R}.

Lemma keeps_ret {A} (a : A) : keeps R (ret a).
Proof. intros w. simpl. reflexivity. Qed.

Lemma keeps_bind {A B} (m : M A) (k : A -> M B) :
  keeps R m -> (forall a, keeps R (k a)) -> keeps R (bind m k).
Proof.
  intros Hm Hk w. unfold bind. specialize (Hm w).
  destruct (m w) as [a w1]. simpl in Hm.
  etransitivity; [exact Hm | apply Hk].
Qed.

Lemma keeps_forEach {A} (l : list A) (body : A -> M Outcome) :
  (forall x, In x l -> keeps R (body x)) -> keeps R (forEach l body).
Proof.
  induction l as [|x l IH]; intros Hbody; simpl.
  - apply keeps_ret.
  - apply keeps_bind; [apply Hbody; by left |].
    intros [|]; [| apply keeps_ret].
    apply IH. intros y Hy. apply Hbody. by right.
Qed.

(** What every turn of the loop keeps, the daily run keeps. *)
Lemma keeps_runDaily (env : Env) (now : Now) (raw : list Festival)
    (guilds : list Guild) :
  (forall g, keeps R (runGuild env now raw g)) ->
  keeps R (runDaily env now raw guilds).
Proof.
  intros Hbody. unfold runDaily, runGuilds.
  apply keeps_bind; [| intros _; apply keeps_ret].
  apply keeps_forEach. intros g _. apply Hbody.
Qed.

Lemma keeps_get_trace : keeps R get_trace.
Proof. intros w. simpl. reflexivity. Qed.

Lemma keeps_getConfigs : keeps R getConfigs.
Proof. intros w. simpl. reflexivity. Qed.

Lemma keeps_cacheGet (k : string) : keeps R (cacheGet k).
Proof. intros w. simpl. reflexivity. Qed.
End Keeps.

(** Splits a [keeps] goal along the structure of the program. *)
Ltac keeps_step :=
  lazymatch goal with
  | |- keeps _ (ret _) => refine (keeps_ret _ _)
  | |- keeps _ get_trace => refine (keeps_get_trace _)
  | |- keeps _ getConfigs => refine (keeps_getConfigs _)
  | |- keeps _ (cacheGet _) => refine (keeps_cacheGet _ _)
  | |- keeps _ (bind _ _) => refine (keeps_bind _ _ _ _ _); [| intros ?]
  | |- keeps _ (if ?b then _ else _) => destruct b eqn:?
  | |- keeps _ (match ?x with _ => _ end) => destruct x eqn:?
  end.

(** ** The cache never changes a non-empty entry *)

(** Every non-empty entry of the cache of [w] is still there, unchanged,
    in [w']. *)
Definition cache_stable (w w' : World) : Prop :=
  forall k v, wishCache w !! k = Some v -> Js.truthy v = true ->
              wishCache w' !! k = Some v.

#[local] Instance cache_stable_preorder : PreOrder cache_stable.
Proof.
  split.
  - by intros w k v.
  - intros w1 w2 w3 H12 H23 k v Hk Hv. apply H23; [by apply H12 | done].
Qed.

Lemma cache_stable_same (w w' : World) :
  wishCache w' = wishCache w -> cache_stable w w'.
Proof. intros Heq k v. by rewrite Heq. Qed.

(** A write to a key whose entry is missing or empty. *)
Lemma cache_stable_insert (w w' : World) (key text : string) :
  truthy_opt (wishCache w !! key) = false ->
  wishCache w' = <[key := text]> (wishCache w) ->
  cache_stable w w'.
Proof.
  intros Hmiss Heq k v Hk Hv. rewrite Heq.
  destruct (decide (key = k)) as [->|Hne].
  - rewrite Hk in Hmiss. simpl in Hmiss. congruence.
  - by rewrite lookup_insert_ne.
Qed.

Lemma fallback_truthy (name : string) : Js.truthy (fallback name) = true.
Proof. reflexivity. Qed.

Lemma accepted_truthy (r : GeminiResult) (text : string) :
  accepted r = Some text -> Js.truthy text = true.
Proof.
  destruct r as [| |raw]; try discriminate. unfold accepted.
  destruct (Js.truthy (Js.trim raw)) eqn:Ht; cbn [andb]; [| discriminate].
  destruct (220 <=? Js.length (Js.trim raw))%nat; [| discriminate].
  intros Heq. injection Heq as <-. exact Ht.
Qed.

(** The key under which [makeAIWish] caches the wish of a day and name. *)
Definition wishKey (dateISO name : string) : string :=
  cacheKey dateISO ("wish:" +:+ name).

Definition imgKey (dateISO name : string) : string :=
  cacheKey dateISO ("img:" +:+ name).

(** A hit: the cached text is returned and the world is left as it is. *)
Lemma makeAIWish_hit (env : Env) (dateISO name faith : string) (w : World) (v : string) :
  wishCache w !! wishKey dateISO name = Some v -> Js.truthy v = true ->
  makeAIWish env dateISO name faith w = (v, w).
Proof.
  intros Hk Hv. unfold makeAIWish, bind, cacheGet. fold (wishKey dateISO name).
  rewrite Hk. simpl. by rewrite Hv.
Qed.

(** A miss: a non-empty text is written under the key and returned. *)
Lemma makeAIWish_miss (env : Env) (dateISO name faith : string) (w : World) :
  truthy_opt (wishCache w !! wishKey dateISO name) = false ->
  let text :=
    match genAI env with
    | Some model =>
        default (fallback name)
                (accepted (model (trace w) (aiWishPrompt name faith)))
    | None => fallback name
    end in
  let res := makeAIWish env dateISO name faith w in
  res.1 = text /\ Js.truthy text = true /\
  guildConfigs res.2 = guildConfigs w /\
  wishCache res.2 = <[wishKey dateISO name := text]> (wishCache w) /\
  exists evs, trace res.2 = trace w ++ evs /\
              Forall (fun e => match e with
                               | CallGemini _ | WriteCache _ => True
                               | _ => False
                               end) evs.
Proof.
  intros Hmiss. unfold makeAIWish, bind, cacheGet. fold (wishKey dateISO name).
  rewrite Hmiss. destruct (genAI env) as [model|]; simpl.
  - destruct (accepted (model (trace w) (aiWishPrompt name faith))) as [text|] eqn:Hacc;
      simpl; (split_and!; [done | by eauto using accepted_truthy, fallback_truthy
                          | done | done |]);
      eexists; (split; [by rewrite <- app_assoc | by repeat constructor]).
  - split_and!; try done. eexists. split; [done | by repeat constructor].
Qed.

Lemma makeAIWish_cache_stable (env : Env) (dateISO name faith : string) :
  keeps cache_stable (makeAIWish env dateISO name faith).
Proof.
  intros w.
  destruct (truthy_opt (wishCache w !! wishKey dateISO name)) eqn:Hc.
  - destruct (wishCache w !! wishKey dateISO name) as [v|] eqn:Hk; [| done].
    rewrite (makeAIWish_hit env dateISO name faith w v Hk Hc). reflexivity.
  - destruct (makeAIWish_miss env dateISO name faith w Hc) as (_ & _ & _ & Hw & _).
    eapply cache_stable_insert; eauto.
Qed.

(** The events of the two generation adapters. *)
Definition is_generation (e : Event) : Prop :=
  match e with
  | CallGemini _ | CallRandom | CallPexels _ _ | WriteCache _ => True
  | _ => False
  end.

Lemma getFestivalImage_hit (env : Env) (dateISO name faith : string) (w : World) (v : string) :
  wishCache w !! imgKey dateISO name = Some v -> Js.truthy v = true ->
  getFestivalImage env dateISO name faith w = (v, w).
Proof.
  intros Hk Hv. unfold getFestivalImage, bind, cacheGet. fold (imgKey dateISO name).
  rewrite Hk. simpl. by rewrite Hv.
Qed.

(** The search of [getFestivalImage] on a miss, before the result is
    cached: it only appends provider calls to the trace. *)
Definition searchImage (env : Env) (name faith : string) : M string :=
  if String.eqb (IMAGE_PROVIDER env) "pexels" then
    let! query := queryForImage env name faith in
    fetchPexelsImage env (param_string query)
  else ret "".

Lemma searchImage_effect (env : Env) (name faith : string) (w : World) :
  let res := searchImage env name faith w in
  guildConfigs res.2 = guildConfigs w /\
  wishCache res.2 = wishCache w /\
  exists evs, trace res.2 = trace w ++ evs /\ Forall is_generation evs.
Proof.
  unfold searchImage, queryForImage, fetchPexelsImage, bind, get_trace, emit, ret.
  destruct (String.eqb (IMAGE_PROVIDER env) "pexels"); simpl.
  2: { split_and!; try done. exists []. by rewrite app_nil_r. }
  destruct (Js.truthy (PEXELS_KEY env)); simpl.
  2: { split_and!; try done. exists [CallRandom]. split; [done | by repeat constructor]. }
  match goal with
  | |- context [pexels env ?tr ?q] => destruct (pexels env tr q) as [|[[|p ps]|]]
  end; simpl; (split_and!; [done | done |]);
    eexists; (split; [by rewrite <- app_assoc | by repeat constructor]).
Qed.

Lemma getFestivalImage_unfold (env : Env) (dateISO name faith : string) :
  getFestivalImage env dateISO name faith =
  (let! cached := cacheGet (imgKey dateISO name) in
   if truthy_opt cached then ret (default "" cached)
   else
     let! url := searchImage env name faith in
     (if Js.truthy url then cacheSet (imgKey dateISO name) url else ret tt) ;;;
     ret url).
Proof. reflexivity. Qed.

Lemma getFestivalImage_miss (env : Env) (dateISO name faith : string) (w : World) :
  truthy_opt (wishCache w !! imgKey dateISO name) = false ->
  let found := searchImage env name faith w in
  let res := getFestivalImage env dateISO name faith w in
  res.1 = found.1 /\
  guildConfigs res.2 = guildConfigs w /\
  wishCache res.2 =
    (if Js.truthy found.1 then <[imgKey dateISO name := found.1]> (wishCache w)
     else wishCache w) /\
  trace res.2 =
    trace found.2 ++
    (if Js.truthy found.1
     then [WriteCache (<[imgKey dateISO name := found.1]> (wishCache w))]
     else []).
Proof.
  intros Hmiss. cbv zeta.
  destruct (searchImage_effect env name faith w) as (Hg & Hc & _).
  rewrite getFestivalImage_unfold. unfold bind, cacheGet.
  rewrite Hmiss.
  destruct (searchImage env name faith w) as [url w1]. simpl in *.
  destruct (Js.truthy url); simpl; rewrite ?Hc, ?Hg, ?app_nil_r; done.
Qed.

Lemma getFestivalImage_cache_stable (env : Env) (dateISO name faith : string) :
  keeps cache_stable (getFestivalImage env dateISO name faith).
Proof.
  intros w.
  destruct (truthy_opt (wishCache w !! imgKey dateISO name)) eqn:Hc.
  - destruct (wishCache w !! imgKey dateISO name) as [v|] eqn:Hk; [| done].
    rewrite (getFestivalImage_hit env dateISO name faith w v Hk Hc). reflexivity.
  - destruct (getFestivalImage_miss env dateISO name faith w Hc) as (_ & _ & Hw & _).
    destruct (Js.truthy _) in Hw.
    + eapply cache_stable_insert; eauto.
    + by apply cache_stable_same.
Qed.

Lemma cache_stable_emit (e : Event) : keeps cache_stable (emit e).
Proof. intros w. by apply cache_stable_same. Qed.

Lemma cache_stable_setConfig (gid : string) (s : Stored) :
  keeps cache_stable (setConfig gid s).
Proof. intros w. by apply cache_stable_same. Qed.

Lemma cache_stable_updateConfig (gid : string) (f : Stored -> Stored) :
  keeps cache_stable (updateConfig gid f).
Proof. intros w. by apply cache_stable_same. Qed.

Lemma cache_stable_saveConfigs : keeps cache_stable saveConfigs.
Proof. intros w. by apply cache_stable_same. Qed.

(** Closes a [keeps cache_stable] goal on a program made of the pieces
    above. *)
Ltac cache_stable_tac :=
  repeat first
    [ apply makeAIWish_cache_stable
    | apply getFestivalImage_cache_stable
    | apply cache_stable_emit
    | apply cache_stable_setConfig
    | apply cache_stable_updateConfig
    | apply cache_stable_saveConfigs
    | keeps_step ].

Lemma resolveChannel_cache_stable (env : Env) (g : Guild) (channelId : option string) :
  keeps cache_stable (resolveChannel env g channelId).
Proof. unfold resolveChannel. cache_stable_tac. Qed.

Lemma runGuild_cache_stable (env : Env) (now : Now) (raw : list Festival) (g : Guild) :
  keeps cache_stable (runGuild env now raw g).
Proof.
  unfold runGuild, findChannel. cache_stable_tac.
  - apply resolveChannel_cache_stable.
  - refine (keeps_forEach _ _ _ _). intros fest _.
    unfold postFestival. cache_stable_tac.
Qed.

Lemma runDaily_cache_stable (env : Env) (now : Now) (raw : list Festival)
    (guilds : list Guild) :
  keeps cache_stable (runDaily env now raw guilds).
Proof.
  unfold runDaily, runGuilds. cache_stable_tac.
  refine (keeps_forEach _ _ _ _). intros g _. apply runGuild_cache_stable.
Qed.

Lemma onInteraction_cache_stable (env : Env) (i : Interaction) :
  keeps cache_stable (onInteraction env i).
Proof. unfold onInteraction, runCommand. cache_stable_tac. Qed.

(** ** What the process runs, one step after the other *)

Inductive Op :=
  | OpWish (env : Env) (dateISO name faith : string)
  | OpImage (env : Env) (dateISO name faith : string)
  | OpDaily (env : Env) (now : Now) (rawFestivals : list Festival)
            (guilds : list Guild)
  | OpInteraction (env : Env) (interaction : Interaction).

Definition exec (o : Op) (w : World) : World :=
  match o with
  | OpWish env d n f => (makeAIWish env d n f w).2
  | OpImage env d n f => (getFestivalImage env d n f w).2
  | OpDaily env now raw guilds => (runDaily env now raw guilds w).2
  | OpInteraction env i => (onInteraction env i w).2
  end.

Definition execs (ops : list Op) (w : World) : World :=
  fold_left (fun w o => exec o w) ops w.

Lemma exec_cache_stable (o : Op) (w : World) : cache_stable w (exec o w).
Proof.
  destruct o; simpl.
  - apply makeAIWish_cache_stable.
  - apply getFestivalImage_cache_stable.
  - apply runDaily_cache_stable.
  - apply onInteraction_cache_stable.
Qed.

Lemma execs_cache_stable (ops : list Op) (w : World) :
  cache_stable w (execs ops w).
Proof.
  revert w. induction ops as [|o ops IH]; intros w; simpl.
  - reflexivity.
  - etransitivity; [apply exec_cache_stable | apply IH].
Qed.

(** Whatever [makeAIWish] returns is, once it has returned, the entry of
    its key, and is not empty. *)
Lemma makeAIWish_cached (env : Env) (dateISO name faith : string) (w : World) :
  let res := makeAIWish env dateISO name faith w in
  wishCache res.2 !! wishKey dateISO name = Some res.1 /\
  Js.truthy res.1 = true.
Proof.
  cbv zeta.
  destruct (truthy_opt (wishCache w !! wishKey dateISO name)) eqn:Hc.
  - destruct (wishCache w !! wishKey dateISO name) as [v|] eqn:Hk; [| done].
    by rewrite (makeAIWish_hit env dateISO name faith w v Hk Hc).
  - destruct (makeAIWish_miss env dateISO name faith w Hc) as (Ht & Htr & _ & Hw & _).
    rewrite Hw, Ht. split; [apply lookup_insert_eq | done].
Qed.

(** C5: once a call of [makeAIWish] for a date and a name has returned
    (and so has written, or found, the entry of its key), every later
    call for the same date and name, whatever ran in between, whatever
    the category passed and whatever the provider would answer, returns
    the very same string and leaves the world, its trace included, as it
    was: the provider is not called again. *)
Theorem makeAIWish_idempotent
    (env env' : Env) (dateISO name faith faith' : string)
    (between : list Op) (w : World) :
  let first := makeAIWish env dateISO name faith w in
  let w' := execs between first.2 in
  let second := makeAIWish env' dateISO name faith' w' in
  second.1 = first.1 /\ second.2 = w' /\ trace second.2 = trace w'.
Proof.
  cbv zeta.
  destruct (makeAIWish_cached env dateISO name faith w) as [Hk Ht].
  pose proof (execs_cache_stable between _ _ _ Hk Ht) as Hk'.
  by rewrite (makeAIWish_hit env' dateISO name faith' _ _ Hk' Ht).
Qed.

(** The provider is missing, fails, or answers a text that the guard of
    [makeAIWish] rejects. *)
Definition provider_fails (env : Env) (tr : list Event) (name faith : string) : Prop :=
  match genAI env with
  | Some model => accepted (model tr (aiWishPrompt name faith)) = None
  | None => True
  end.

(** C2: when the entry of a date and a name is missing and the provider
    fails or its answer is rejected, [makeAIWish] writes the fallback
    template under the key and returns it; every later call for the same
    date and name, whatever ran in between and whatever the provider
    would now answer, returns that fallback and calls nothing. *)
Theorem fallback_pinned
    (env : Env) (dateISO name faith : string) (w : World) :
  truthy_opt (wishCache w !! wishKey dateISO name) = false ->
  provider_fails env (trace w) name faith ->
  let first := makeAIWish env dateISO name faith w in
  first.1 = fallback name /\
  wishCache first.2 !! wishKey dateISO name = Some (fallback name) /\
  forall (between : list Op) (env' : Env) (faith' : string),
    let w' := execs between first.2 in
    makeAIWish env' dateISO name faith' w' = (fallback name, w').
Proof.
  intros Hmiss Hfail. cbv zeta.
  destruct (makeAIWish_miss env dateISO name faith w Hmiss) as (Ht & _ & _ & Hw & _).
  assert (Hfb : (makeAIWish env dateISO name faith w).1 = fallback name).
  { rewrite Ht. unfold provider_fails in Hfail.
    destruct (genAI env); [by rewrite Hfail | done]. }
  destruct (makeAIWish_cached env dateISO name faith w) as [Hk _].
  rewrite Hfb in Hk. split_and!; [done | done |].
  intros between env' faith'.
  pose proof (execs_cache_stable between _ _ _ Hk (fallback_truthy name)) as Hk'.
  by rewrite (makeAIWish_hit env' dateISO name faith' _ _ Hk' (fallback_truthy name)).
Qed.

(** A text long enough for the guard of [makeAIWish]. *)
Definition sample_wish : string :=
  "Diwali ki dher saari shubhkamnayein doston! Is roshni ke tyohaar par aapke ghar mein khushiyan, sehat aur samriddhi aaye. Chaliye milkar diye jalayein, mithai baantein aur apni community mein pyaar aur unity failayein. Happy Diwali to all of you!".

(** The limits of the embed builder on the lengths of a title and of a
    description. *)
Definition within_limits (e : Embed) : bool :=
  (Js.length (e_title e) <=? 256)%nat
  && (1 <=? Js.length (e_description e))%nat
  && (Js.length (e_description e) <=? 4096)%nat.

Definition env_down : Env :=
  {| TZ := "Asia/Kolkata";
     genAI := Some (fun _ _ => GeminiThrows);
     IMAGE_PROVIDER := "pexels";
     PEXELS_KEY := "";
     pexels := fun _ _ => PexelsThrows;
     random := fun _ => 0%Q;
     channels_fetch := fun _ _ _ => None;
     embed_accepted := within_limits |}.

Definition env_up : Env :=
  {| TZ := "Asia/Kolkata";
     genAI := Some (fun _ _ => GeminiText sample_wish);
     IMAGE_PROVIDER := "pexels";
     PEXELS_KEY := "";
     pexels := fun _ _ => PexelsThrows;
     random := fun _ => 0%Q;
     channels_fetch := fun _ _ _ => None;
     embed_accepted := within_limits |}.

Definition world0 : World :=
  {| guildConfigs := ∅; wishCache := ∅; trace := [] |}.

(** The provider is down at the first call and up at the second: the
    second call still returns the fallback, although on a fresh cache it
    would have returned the provider's text. *)
Lemma fallback_pinned_witness :
  let first := makeAIWish env_down "2024-11-01" "Diwali" "hindu" world0 in
  makeAIWish env_up "2024-11-01" "Diwali" "hindu" first.2
    = (fallback "Diwali", first.2) /\
  (makeAIWish env_up "2024-11-01" "Diwali" "hindu" world0).1 = sample_wish.
Proof.
  split.
  - pose proof (fallback_pinned env_down "2024-11-01" "Diwali" "hindu" world0
                  eq_refl eq_refl) as (_ & _ & Hlater).
    apply (Hlater [] env_up "hindu").
  - vm_compute. reflexivity.
Defined.

(** ** The random choice of a query *)

Lemma Qfloor_iff (x : Q) (i : Z) :
  Qfloor x = i <-> (inject_Z i <= x /\ x < inject_Z (i + 1))%Q.
Proof.
  split.
  - intros <-. split; [apply Qfloor_le | apply Qlt_floor].
  - intros [Hlo Hhi].
    assert (i <= Qfloor x)%Z.
    { rewrite <- (Qfloor_Z i). by apply Qfloor_resp_le. }
    assert (Qfloor x < i + 1)%Z.
    { rewrite Zlt_Qlt. eapply Qle_lt_trans; [apply Qfloor_le | done]. }
    lia.
Qed.

Lemma inject_nat_pos (n : nat) :
  (0 < n)%nat -> (0 < inject_Z (Z.of_nat n))%Q.
Proof. intros Hn. change 0%Q with (inject_Z 0). rewrite <- Zlt_Qlt. lia. Qed.

(** [Math.floor(r * n)] is [i] exactly when [r] lies in the [i]-th of the
    [n] slices of equal width [1/n]. *)
Lemma floor_times_slice (r : Q) (n : nat) (i : Z) :
  (0 < n)%nat ->
  floor_times r n = i <->
  (inject_Z i / inject_Z (Z.of_nat n) <= r /\
   r < inject_Z (i + 1) / inject_Z (Z.of_nat n))%Q.
Proof.
  intros Hn. pose proof (inject_nat_pos n Hn) as Hpos.
  set (N := inject_Z (Z.of_nat n)) in *.
  assert (HN : ~ (N == 0)%Q) by (intros H0; rewrite H0 in Hpos; by apply Qlt_irrefl in Hpos).
  unfold floor_times. fold N. rewrite Qfloor_iff. split.
  - intros [Hlo Hhi]. split.
    + by apply Qle_shift_div_r.
    + by apply Qlt_shift_div_l.
  - intros [Hlo Hhi]. split.
    + assert (Hi : (inject_Z i / N * N == inject_Z i)%Q)
        by (rewrite Qmult_comm; by apply Qmult_div_r).
      rewrite <- Hi. apply Qmult_le_compat_r; [done | by apply Qlt_le_weak].
    + assert (Hi : (inject_Z (i + 1) / N * N == inject_Z (i + 1))%Q)
        by (rewrite Qmult_comm; by apply Qmult_div_r).
      rewrite <- Hi. by apply Qmult_lt_compat_r.
Qed.

Lemma floor_times_range (r : Q) (n : nat) :
  (0 < n)%nat -> (0 <= r)%Q -> (r < 1)%Q ->
  (0 <= floor_times r n < Z.of_nat n)%Z.
Proof.
  intros Hn Hlo Hhi. pose proof (inject_nat_pos n Hn) as Hpos.
  unfold floor_times. set (N := inject_Z (Z.of_nat n)) in *. split.
  - rewrite <- (Qfloor_Z 0). apply Qfloor_resp_le.
    apply Qmult_le_0_compat; [done | by apply Qlt_le_weak].
  - rewrite Zlt_Qlt. eapply Qle_lt_trans; [apply Qfloor_le |].
    fold N. rewrite <- (Qmult_1_l N) at 2. by apply Qmult_lt_compat_r.
Qed.

(** The templates [queryForImage] chooses from. *)
Definition templates (name faith : string) : list string :=
  default [name +:+ " festival India celebration"] (base name faith).

Lemma templates_length (name faith : string) :
  (0 < length (templates name faith))%nat.
Proof.
  unfold templates, base.
  repeat (destruct (String.eqb faith _); [simpl; lia |]). simpl. lia.
Qed.

(** With [Math.random()] in [0, 1), [queryForImage] returns one of the
    templates: the one whose slice of [0, 1) the random number falls in. *)
Lemma queryForImage_spec (env : Env) (name faith : string) (w : World) :
  let r := random env (trace w) in
  let arr := templates name faith in
  (0 <= r)%Q -> (r < 1)%Q ->
  exists (i : nat) (query : string),
    arr !! i = Some query /\
    Z.of_nat i = floor_times r (length arr) /\
    queryForImage env name faith w =
      (Some query, {| guildConfigs := guildConfigs w;
                      wishCache := wishCache w;
                      trace := trace w ++ [CallRandom] |}).
Proof.
  intros r arr Hlo Hhi.
  pose proof (floor_times_range r (length arr) (templates_length name faith) Hlo Hhi)
    as [H0 Hlt].
  set (i := Z.to_nat (floor_times r (length arr))).
  assert (Hi : (i < length arr)%nat) by lia.
  destruct (lookup_lt_is_Some_2 arr i Hi) as [query Hq].
  exists i, query. split_and!; [done | lia |].
  unfold queryForImage, bind, get_trace, emit, ret. simpl.
  fold (templates name faith). fold arr. fold r. unfold at_index.
  destruct (Z.ltb_spec (floor_times r (length arr)) 0); [lia |].
  fold i. by rewrite Hq.
Qed.

(** ** The choice among the candidates *)

(** [p] is the first candidate at least as wide as high. *)
Definition first_landscape (p : Photo) (photos : list Photo) : Prop :=
  exists before after,
    photos = before ++ p :: after /\
    (height p <= width p)%Z /\
    Forall (fun q => (width q < height q)%Z) before.

Definition no_landscape (photos : list Photo) : Prop :=
  Forall (fun q => (width q < height q)%Z) photos.

Lemma pick_photo_spec (photos : list Photo) :
  match pick_photo photos with
  | Some p =>
      first_landscape p photos \/ (no_landscape photos /\ head photos = Some p)
  | None => photos = []
  end.
Proof.
  unfold pick_photo.
  assert (Hfind :
    match List.find (fun p => (height p <=? width p)%Z) photos with
    | Some p => first_landscape p photos
    | None => no_landscape photos
    end).
  { induction photos as [|q photos IH]; simpl.
    - constructor.
    - destruct (Z.leb_spec (height q) (width q)) as [Hw|Hw].
      + exists [], photos. by split_and!.
      + destruct (List.find _ photos) as [p|].
        * destruct IH as (before & after & -> & Hp & Hb).
          exists (q :: before), after. split_and!; [done | done | by constructor].
        * by constructor. }
  destruct (List.find _ photos) as [p|].
  - by left.
  - destruct photos as [|q photos]; [done |]. right. by split.
Qed.

(** The URL of the chosen candidate: its landscape rendition, else its
    large one, else nothing. *)
Lemma photo_url_spec (p : Photo) :
  photo_url (Some p) =
  match src p with
  | Some s =>
      if truthy_opt (landscape s) then default "" (landscape s)
      else if truthy_opt (large s) then default "" (large s)
      else ""
  | None => ""
  end.
Proof.
  unfold photo_url, or_else. simpl. destruct (src p) as [s|]; simpl; [| done].
  destruct (truthy_opt (landscape s)) eqn:Hl; simpl.
  - by rewrite Hl.
  - by destruct (truthy_opt (large s)) eqn:Hg; simpl; rewrite ?Hg.
Qed.

(** What [fetchPexelsImage] makes of the provider's answer. *)
Definition url_of (answer : PexelsResult) : string :=
  match answer with
  | PexelsThrows => ""
  | PexelsJson res =>
      match default [] res with
      | [] => ""
      | photos => photo_url (pick_photo photos)
      end
  end.

Lemma fetchPexelsImage_keyed (env : Env) (query : string) (w : World) :
  Js.truthy (PEXELS_KEY env) = true ->
  fetchPexelsImage env query w =
    (url_of (pexels env (trace w) query),
     {| guildConfigs := guildConfigs w;
        wishCache := wishCache w;
        trace := trace w ++ [CallPexels query "10"] |}).
Proof.
  intros Hkey. unfold fetchPexelsImage, bind, get_trace, emit, ret. rewrite Hkey. simpl.
  destruct (pexels env (trace w) query) as [|[[|p ps]|]]; reflexivity.
Qed.

Lemma fetchPexelsImage_no_key (env : Env) (query : string) (w : World) :
  Js.truthy (PEXELS_KEY env) = false ->
  fetchPexelsImage env query w = ("", w).
Proof. intros Hkey. unfold fetchPexelsImage. by rewrite Hkey. Qed.

(** [url] is what the candidates of [answer] give: nothing when the call
    failed or there is no candidate, else the URL of the first landscape
    candidate, else that of the first candidate. *)
Definition chosen_from (answer : PexelsResult) (url : string) : Prop :=
  match answer with
  | PexelsThrows => url = ""
  | PexelsJson res =>
      let photos := default [] res in
      (photos = [] /\ url = "") \/
      (exists p,
         (first_landscape p photos \/
          (no_landscape photos /\ head photos = Some p)) /\
         url = photo_url (Some p))
  end.

Lemma url_of_spec (answer : PexelsResult) : chosen_from answer (url_of answer).
Proof.
  destruct answer as [|res]; [done |]. simpl.
  pose proof (pick_photo_spec (default [] res)) as Hpick.
  destruct (pick_photo (default [] res)) as [p|] eqn:Hp.
  - right. exists p. split; [done |].
    destruct (default [] res) as [|q photos]; [discriminate | by rewrite Hp].
  - left. by rewrite Hpick.
Qed.

Lemma searchImage_pexels (env : Env) (name faith : string) (w : World)
    (query : string) :
  IMAGE_PROVIDER env = "pexels" ->
  Js.truthy (PEXELS_KEY env) = true ->
  queryForImage env name faith w =
    (Some query, {| guildConfigs := guildConfigs w;
                    wishCache := wishCache w;
                    trace := trace w ++ [CallRandom] |}) ->
  searchImage env name faith w =
    (url_of (pexels env (trace w ++ [CallRandom]) query),
     {| guildConfigs := guildConfigs w;
        wishCache := wishCache w;
        trace := trace w ++ [CallRandom; CallPexels query "10"] |}).
Proof.
  intros Hprov Hkey Hq. unfold searchImage. rewrite Hprov.
  change ("pexels" =? "pexels")%string with true. cbv iota.
  unfold bind. rewrite Hq.
  rewrite (fetchPexelsImage_keyed env query _ Hkey). simpl.
  by rewrite <- app_assoc.
Qed.

(** Without the pexels provider, or without its key, nothing is found. *)
Lemma searchImage_unconfigured (env : Env) (name faith : string) (w : World) :
  IMAGE_PROVIDER env <> "pexels" \/ Js.truthy (PEXELS_KEY env) = false ->
  (searchImage env name faith w).1 = "".
Proof.
  intros Hcfg. unfold searchImage.
  destruct (String.eqb_spec (IMAGE_PROVIDER env) "pexels") as [Heq|Hne]; [| done].
  destruct Hcfg as [Hne|Hkey]; [done |].
  unfold bind. destruct (queryForImage env name faith w) as [q w1].
  by rewrite (fetchPexelsImage_no_key env _ w1 Hkey).
Qed.

(** C6: on a miss, with the pexels provider and its key configured and
    [Math.random()] in [0, 1), [getFestivalImage] asks for one of the
    templates of the category, each template having a slice of [0, 1) of
    the same width; it asks the provider for 10 candidates per page; it
    returns the URL of the first candidate at least as wide as high, else
    that of the first candidate, else the empty string, which is also
    what a failure of the call gives; and it writes the result to the
    cache only when it is not empty, the cache being left as it was
    otherwise. *)
Theorem getFestivalImage_on_miss
    (env : Env) (dateISO name faith : string) (w : World) :
  IMAGE_PROVIDER env = "pexels" ->
  Js.truthy (PEXELS_KEY env) = true ->
  truthy_opt (wishCache w !! imgKey dateISO name) = false ->
  let r := random env (trace w) in
  (0 <= r)%Q -> (r < 1)%Q ->
  let arr := templates name faith in
  let slices := inject_Z (Z.of_nat (length arr)) in
  let res := getFestivalImage env dateISO name faith w in
  exists (i : nat) (query : string),
    arr !! i = Some query /\
    (inject_Z (Z.of_nat i) / slices <= r /\
     r < inject_Z (Z.of_nat i + 1) / slices)%Q /\
    trace res.2 =
      trace w ++ [CallRandom; CallPexels query "10"] ++
      (if Js.truthy res.1 then [WriteCache (wishCache res.2)] else []) /\
    chosen_from (pexels env (trace w ++ [CallRandom]) query) res.1 /\
    wishCache res.2 =
      (if Js.truthy res.1 then <[imgKey dateISO name := res.1]> (wishCache w)
       else wishCache w) /\
    guildConfigs res.2 = guildConfigs w.
Proof.
  intros Hprov Hkey Hmiss r Hlo Hhi arr slices res.
  destruct (queryForImage_spec env name faith w Hlo Hhi) as (i & query & Hq & Hi & Hqf).
  exists i, query.
  pose proof (searchImage_pexels env name faith w query Hprov Hkey Hqf) as Hs.
  destruct (getFestivalImage_miss env dateISO name faith w Hmiss)
    as (Hurl & Hg & Hc & Htr).
  rewrite Hs in Hurl, Hc, Htr. simpl in Hurl, Hc, Htr. fold res in Hurl, Hg, Hc, Htr.
  pose proof (proj1 (floor_times_slice r (length arr) (Z.of_nat i)
                       (templates_length name faith)) (eq_sym Hi)) as [Hs1 Hs2].
  split_and!.
  - done.
  - exact Hs1.
  - exact Hs2.
  - rewrite Htr, Hc, Hurl, <- app_assoc.
    by destruct (Js.truthy (url_of _)).
  - rewrite Hurl. apply url_of_spec.
  - by rewrite Hc, Hurl.
  - done.
Qed.

Definition env_img : Env :=
  {| TZ := "Asia/Kolkata";
     genAI := None;
     IMAGE_PROVIDER := "pexels";
     PEXELS_KEY := "key";
     pexels := fun _ _ =>
       PexelsJson (Some
         [ {| width := 600; height := 900;
              src := Some {| landscape := Some "https://img/1-l"; large := None |} |};
           {| width := 1200; height := 800;
              src := Some {| landscape := Some "https://img/2-l";
                             large := Some "https://img/2" |} |} ]);
     random := fun _ => (2 # 3)%Q;
     channels_fetch := fun _ _ _ => None;
     embed_accepted := within_limits |}.

(** With the random number 2/3 the third Hindu template is asked for, and
    of a portrait and a landscape candidate the landscape one is taken. *)
Lemma getFestivalImage_on_miss_witness :
  let res := getFestivalImage env_img "2024-11-01" "Diwali" "hindu" world0 in
  (exists (i : nat) (query : string),
     templates "Diwali" "hindu" !! i = Some query /\
     chosen_from (pexels env_img [CallRandom] query) res.1) /\
  res.1 = "https://img/2-l" /\
  trace res.2 = [CallRandom; CallPexels "rangoli festive decor" "10";
                 WriteCache (wishCache res.2)].
Proof.
  split.
  - assert (Hlo : (0 <= 2 # 3)%Q) by (unfold Qle; simpl; lia).
    assert (Hhi : (2 # 3 < 1)%Q) by reflexivity.
    destruct (getFestivalImage_on_miss env_img "2024-11-01" "Diwali" "hindu" world0
                eq_refl eq_refl eq_refl Hlo Hhi)
      as (i & query & Hq & _ & _ & Hchosen & _).
    exists i, query. split; [exact Hq | exact Hchosen].
  - split; vm_compute; reflexivity.
Defined.

(** ** Settings: what the store says of a guild *)

Lemma spread_store_cfg (d c : Cfg) : spread d (store_cfg c) = c.
Proof. by destruct c. Qed.

(** Writing back the settings read for a guild changes the settings of
    no guild. *)
Lemma cfgFor_write_back (configs : gmap string Stored) (gid g : string) :
  cfgFor (<[gid := store_cfg (cfgFor configs gid)]> configs) g = cfgFor configs g.
Proof.
  unfold cfgFor at 1. destruct (decide (gid = g)) as [->|Hne].
  - rewrite lookup_insert_eq. simpl. apply spread_store_cfg.
  - by rewrite lookup_insert_ne.
Qed.


Lemma cfgFor_empty (gid : string) : cfgFor ∅ gid = defaultsFor.
Proof. unfold cfgFor. by rewrite lookup_empty. Qed.

Lemma cfgFor_alter_ne (configs : gmap string Stored) (f : Stored -> Stored)
    (gid g : string) :
  gid <> g -> cfgFor (alter f gid configs) g = cfgFor configs g.
Proof. intros Hne. unfold cfgFor. by rewrite lookup_alter_ne. Qed.

(** The settings of a guild after one field of its stored object, filled
    in beforehand, has been assigned. *)
Lemma cfgFor_alter_eq (configs : gmap string Stored) (f : Stored -> Stored)
    (gid : string) :
  cfgFor (alter f gid (<[gid := store_cfg (cfgFor configs gid)]> configs)) gid
  = spread defaultsFor (f (store_cfg (cfgFor configs gid))).
Proof. unfold cfgFor at 1. by rewrite lookup_alter_eq, lookup_insert_eq. Qed.

(** ** Validation of the configuration commands *)

(** The command is rejected, with the given reply: the channel is neither
    a text channel nor a thread, or no piece of the list is a known
    category, or the mention is none of the three values. *)
Inductive validation_fails : Command -> string -> Prop :=
  | bad_channel (channel : Channel) :
      ~ In (ch_type channel) [GuildText; PublicThread; PrivateThread] ->
      validation_fails (setwisheschannel channel) REJECT_CHANNEL
  | bad_religions (list_opt : string) :
      parse_religions list_opt = [] ->
      validation_fails (setreligions list_opt) REJECT_RELIGIONS
  | bad_mention (mention_opt : string) :
      ~ In (Js.toLowerCase mention_opt) ["everyone"; "here"; "none"] ->
      validation_fails (setmention mention_opt) REJECT_MENTION.

Lemma ChannelType_eqb_spec (a b : ChannelType) :
  ChannelType_eqb a b = true <-> a = b.
Proof. by destruct a, b. Qed.

Lemma channel_accepted_spec (t : ChannelType) :
  existsb (ChannelType_eqb t) [GuildText; PublicThread; PrivateThread] = true
  <-> In t [GuildText; PublicThread; PrivateThread].
Proof.
  rewrite existsb_exists. split.
  - intros [x [Hin Heq]]. apply ChannelType_eqb_spec in Heq. by subst.
  - intros Hin. exists t. split; [done | by apply ChannelType_eqb_spec].
Qed.

(** Leading and trailing separators give empty pieces, runs of
    separators count once, and the filter drops what is not a category. *)
Example split_list_samples :
  split_list ",a, b  c," = [""; "a"; "b"; "c"; ""] /\
  split_list "" = [""] /\
  parse_religions "Hindu, jain  MUSLIM,hindu" = ["hindu"; "muslim"; "hindu"] /\
  set_spread [] (parse_religions "Hindu, jain  MUSLIM,hindu") = ["hindu"; "muslim"] /\
  parse_religions "jain; sikh" = [].
Proof. by split_and!. Qed.

(** White space outside ASCII separates and is trimmed as well: a
    no-break space (U+00A0), an ideographic space (U+3000), a byte order
    mark (U+FEFF). *)
Example split_list_unicode :
  parse_religions ("hindu" +:+ Js.utf8 [0xC2; 0xA0]%N +:+ "muslim")
    = ["hindu"; "muslim"] /\
  parse_religions ("Christian" +:+ Js.utf8 [0xE3; 0x80; 0x80]%N +:+ "jain")
    = ["christian"] /\
  Js.trim (Js.utf8 [0xEF; 0xBB; 0xBF]%N +:+ " hi " +:+ Js.utf8 [0xC2; 0xA0]%N) = "hi" /\
  Js.length (Js.utf8 [0xE3; 0x80; 0x80; 0xF0; 0x9F; 0x8E; 0x89]%N) = 3%nat.
Proof. split_and!; by vm_compute. Qed.

(** A rejected command replies and changes nothing. *)
Lemma runCommand_rejected (env : Env) (gid : string) (c : Command)
    (msg : string) (w : World) :
  validation_fails c msg ->
  runCommand env gid c w =
    (tt, {| guildConfigs := guildConfigs w;
            wishCache := wishCache w;
            trace := trace w ++ [Reply msg] |}).
Proof.
  intros Hbad.
  destruct Hbad as [channel Hch | list_opt Hl | mention_opt Hm]; unfold runCommand.
  - rewrite <- channel_accepted_spec in Hch.
    by destruct (existsb _ _); [destruct Hch |].
  - by rewrite Hl.
  - rewrite <- arr_includes_spec in Hm.
    by destruct (Js.arr_includes _ _); [destruct Hm |].
Qed.

(** The handler, for a slash command sent from a guild. *)
Lemma onInteraction_in_guild (env : Env) (i : Interaction) (gid : string) (w : World) :
  isChatInputCommand i = true -> guildId i = Some gid -> Js.truthy gid = true ->
  onInteraction env i w =
    runCommand env gid (command i)
      {| guildConfigs := <[gid := store_cfg (cfgFor (guildConfigs w) gid)]> (guildConfigs w);
         wishCache := wishCache w;
         trace := trace w |}.
Proof.
  intros Hchat Hgid Ht. unfold onInteraction. rewrite Hchat, Hgid. simpl.
  by rewrite Ht.
Qed.

(** An interaction that is no slash command, or comes from no guild, is
    dropped at the first two lines of the handler. *)
Lemma onInteraction_ignored (env : Env) (i : Interaction) (w : World) :
  isChatInputCommand i = false \/ truthy_opt (guildId i) = false ->
  onInteraction env i w = (tt, w).
Proof.
  intros Hskip. unfold onInteraction.
  destruct (isChatInputCommand i); [| done].
  destruct Hskip as [Hchat | Hgid]; [done |]. simpl. by rewrite Hgid.
Qed.

(** C7, as the specification states it, fails twice.  A command sent
    outside a guild (the bot's commands are registered globally) is
    dropped without any reply, valid or not.  And the handler assigns
    [guildConfigs[gid]] before it validates: a rejected command from a
    guild that had no stored settings leaves an entry for it in the
    store. *)
Lemma rejected_command_counterexample :
  let outside := {| isChatInputCommand := true; guildId := None;
                    command := setmention "loud" |} in
  let inside := {| isChatInputCommand := true; guildId := Some "g1";
                   command := setmention "loud" |} in
  validation_fails (setmention "loud") REJECT_MENTION /\
  trace (onInteraction env_down outside world0).2 = [] /\
  guildConfigs world0 !! "g1" = None /\
  guildConfigs (onInteraction env_down inside world0).2 !! "g1"
    = Some (store_cfg defaultsFor).
Proof.
  split_and!.
  - apply bad_mention. simpl. intros [H | [H | [H | []]]]; discriminate.
  - reflexivity.
  - reflexivity.
  - vm_compute. reflexivity.
Qed.

(** C7 (amended): a configuration command sent from a guild that fails
    validation (a channel that is neither a text channel nor a thread, a
    list without any known category, a mention outside the three values)
    is answered with the rejection reply and nothing else is sent or
    written to a file; the settings of every guild, as the store gives
    them, and the cache are as before; in memory the only change is that
    the object of the invoking guild is filled in with the defaults for
    the fields it lacked.  A command sent outside a guild is ignored
    without a reply. *)
Theorem rejected_command_changes_nothing
    (env : Env) (i : Interaction) (w : World) :
  (forall gid msg,
     isChatInputCommand i = true ->
     guildId i = Some gid -> Js.truthy gid = true ->
     validation_fails (command i) msg ->
     let w' := (onInteraction env i w).2 in
     trace w' = trace w ++ [Reply msg] /\
     (forall g, cfgFor (guildConfigs w') g = cfgFor (guildConfigs w) g) /\
     wishCache w' = wishCache w /\
     guildConfigs w' =
       <[gid := store_cfg (cfgFor (guildConfigs w) gid)]> (guildConfigs w)) /\
  (truthy_opt (guildId i) = false -> onInteraction env i w = (tt, w)).
Proof.
  split.
  - intros gid msg Hchat Hgid Ht Hbad. cbv zeta.
    rewrite (onInteraction_in_guild env i gid w Hchat Hgid Ht).
    rewrite (runCommand_rejected env gid (command i) msg _ Hbad). simpl.
    split_and!; [done | | done | done].
    intros g. apply cfgFor_write_back.
  - intros Hgid. apply onInteraction_ignored. by right.
Qed.

Lemma rejected_command_changes_nothing_witness :
  let i := {| isChatInputCommand := true; guildId := Some "g1";
              command := setmention "loud" |} in
  let w' := (onInteraction env_down i world0).2 in
  trace w' = [Reply REJECT_MENTION] /\
  (forall g, cfgFor (guildConfigs w') g = cfgFor (guildConfigs world0) g) /\
  wishCache w' = wishCache world0 /\
  guildConfigs w' = <[ "g1" := store_cfg (cfgFor ∅ "g1") ]> ∅.
Proof.
  intros i.
  apply (proj1 (rejected_command_changes_nothing env_down i world0)
           "g1" REJECT_MENTION eq_refl eq_refl eq_refl).
  apply bad_mention. simpl. intros [H | [H | [H | []]]]; discriminate.
Defined.

(** ** The vocabulary of categories *)





(** The settings of the invoking guild after each accepted command. *)
Lemma spread_set_religions (c : Cfg) (v : list string) :
  religions (spread defaultsFor (set_religions v (store_cfg c))) = v.
Proof. reflexivity. Qed.

Lemma spread_set_channelId (c : Cfg) (v : string) :
  spread defaultsFor (set_channelId v (store_cfg c)) =
  {| channelId := Some v; lang := lang c; religions := religions c;
     mention := mention c; majorOnly := majorOnly c |}.
Proof. reflexivity. Qed.

Lemma spread_set_mention (c : Cfg) (v : string) :
  religions (spread defaultsFor (set_mention v (store_cfg c))) = religions c.
Proof. reflexivity. Qed.

Lemma spread_set_majorOnly (c : Cfg) (v : bool) :
  religions (spread defaultsFor (set_majorOnly v (store_cfg c))) = religions c.
Proof. reflexivity. Qed.

#[local] Opaque cfgFor.

(** The store after a command, seen from the guild [g]: the settings of
    another guild are as before. *)
Lemma runCommand_other_guild (env : Env) (gid g : string) (c : Command) (w : World) :
  gid <> g ->
  cfgFor (guildConfigs (runCommand env gid c w).2) g = cfgFor (guildConfigs w) g.
Proof.
  intros Hne. destruct c as [channel|list_opt|mention_opt|major_only|other];
    unfold runCommand.
  - destruct (negb _); simpl; [done | by apply cfgFor_alter_ne].
  - destruct (parse_religions list_opt); simpl; [done | by apply cfgFor_alter_ne].
  - destruct (negb _); simpl; [done | by apply cfgFor_alter_ne].
  - simpl. by apply cfgFor_alter_ne.
  - done.
Qed.



(** ** Programs that leave the settings store alone *)

Definition same_configs (w w' : World) : Prop :=
  guildConfigs w' = guildConfigs w.

#[local] Instance same_configs_preorder : PreOrder same_configs.
Proof.
  split.
  - by intros w.
  - intros w1 w2 w3 H12 H23. unfold same_configs in *. congruence.
Qed.

Lemma same_configs_emit (e : Event) : keeps same_configs (emit e).
Proof. by intros w. Qed.

Lemma same_configs_cacheSet (k v : string) : keeps same_configs (cacheSet k v).
Proof. by intros w. Qed.

Ltac same_configs_tac :=
  repeat first
    [ apply same_configs_emit
    | apply same_configs_cacheSet
    | keeps_step ].

Lemma makeAIWish_same_configs (env : Env) (dateISO name faith : string) :
  keeps same_configs (makeAIWish env dateISO name faith).
Proof. unfold makeAIWish, generateContent. same_configs_tac. Qed.

Lemma getFestivalImage_same_configs (env : Env) (dateISO name faith : string) :
  keeps same_configs (getFestivalImage env dateISO name faith).
Proof.
  unfold getFestivalImage, queryForImage, fetchPexelsImage. same_configs_tac.
Qed.

Lemma postFestival_same_configs (env : Env) (now : Now) (g : Guild)
    (chan : Channel) (mentionText : string) (fest : Festival) :
  keeps same_configs (postFestival env now g chan mentionText fest).
Proof.
  unfold postFestival.
  refine (keeps_bind _ _ _ (makeAIWish_same_configs _ _ _ _) _). intros wishText.
  refine (keeps_bind _ _ _ (getFestivalImage_same_configs _ _ _ _) _). intros imageUrl.
  same_configs_tac.
Qed.

Lemma findChannel_same_configs (env : Env) (g : Guild) (channelId : option string) :
  keeps same_configs (findChannel env g channelId).
Proof. unfold findChannel, resolveChannel. same_configs_tac. Qed.

(** ** Programs that only append certain events to the trace *)

Definition appends (P : Event -> Prop) (w w' : World) : Prop :=
  exists evs, trace w' = trace w ++ evs /\ Forall P evs.

#[local] Instance appends_preorder (P : Event -> Prop) : PreOrder (appends P).
Proof.
  split.
  - intros w. exists []. by rewrite app_nil_r.
  - intros w1 w2 w3 (e12 & H12 & P12) (e23 & H23 & P23).
    exists (e12 ++ e23). split.
    + by rewrite H23, H12, app_assoc.
    + by apply Forall_app.
Qed.

Lemma appends_mono (P Q : Event -> Prop) (w w' : World) :
  (forall e, P e -> Q e) -> appends P w w' -> appends Q w w'.
Proof.
  intros HPQ (evs & Htr & HP). exists evs. split; [done |].
  eapply Forall_impl; eauto.
Qed.

Lemma appends_emit (P : Event -> Prop) (e : Event) :
  P e -> keeps (appends P) (emit e).
Proof. intros He w. exists [e]. split; [done | by constructor]. Qed.

Lemma appends_cacheSet (P : Event -> Prop) (k v : string) :
  (forall file, P (WriteCache file)) -> keeps (appends P) (cacheSet k v).
Proof. intros HP w. eexists [_]. split; [done | by constructor]. Qed.

Lemma appends_setConfig (P : Event -> Prop) (gid : string) (s : Stored) :
  keeps (appends P) (setConfig gid s).
Proof. intros w. exists []. by rewrite app_nil_r. Qed.

Lemma appends_saveConfigs (P : Event -> Prop) :
  (forall file, P (WriteConfigs file)) -> keeps (appends P) saveConfigs.
Proof. intros HP w. eexists [_]. split; [done | by constructor]. Qed.

(** The events of one delivery: generation, then a message to
    [target]; no other message, no reply. *)
Definition delivers_to (target : option string) (e : Event) : Prop :=
  match e with
  | Send _ channel _ _ => target = Some channel
  | Reply _ => False
  | _ => True
  end.

Ltac appends_tac :=
  repeat first
    [ apply appends_emit; done
    | apply appends_cacheSet; done
    | apply appends_setConfig
    | apply appends_saveConfigs; done
    | keeps_step ].

Lemma makeAIWish_appends (env : Env) (dateISO name faith : string)
    (target : option string) :
  keeps (appends (delivers_to target)) (makeAIWish env dateISO name faith).
Proof. unfold makeAIWish, generateContent. appends_tac. Qed.

Lemma getFestivalImage_appends (env : Env) (dateISO name faith : string)
    (target : option string) :
  keeps (appends (delivers_to target)) (getFestivalImage env dateISO name faith).
Proof.
  unfold getFestivalImage, queryForImage, fetchPexelsImage. appends_tac.
Qed.

Lemma postFestival_appends (env : Env) (now : Now) (g : Guild)
    (chan : Channel) (mentionText : string) (fest : Festival) :
  keeps (appends (delivers_to (Some (ch_id chan))))
        (postFestival env now g chan mentionText fest).
Proof.
  unfold postFestival.
  refine (keeps_bind _ _ _ (makeAIWish_appends _ _ _ _ _) _). intros wishText.
  refine (keeps_bind _ _ _ (getFestivalImage_appends _ _ _ _ _) _). intros imageUrl.
  appends_tac.
Qed.

Lemma findChannel_appends (env : Env) (g : Guild) (channelId target : option string) :
  keeps (appends (delivers_to target)) (findChannel env g channelId).
Proof. unfold findChannel, resolveChannel. appends_tac. Qed.

(** ** One guild of the daily run *)

(** The mention that goes before the embed. *)
Definition mentionOf (cfg : Cfg) : string :=
  if String.eqb (mention cfg) "everyone" then "@everyone"
  else if String.eqb (mention cfg) "here" then "@here"
  else "".

(** The four ways through the body of the loop: no festival is kept; no
    channel is found; the festivals are posted and the settings saved;
    the building of an embed throws. *)
Lemma runGuild_run (env : Env) (now : Now) (raw : list Festival) (g : Guild) (w : World) :
  let cfg := cfgFor (guildConfigs w) (g_id g) in
  let festivals := List.filter (keep cfg) raw in
  let found := findChannel env g (channelId cfg) w in
  runGuild env now raw g w =
    match festivals with
    | [] => (Completed, w)
    | _ :: _ =>
        match found.1 with
        | None => (Completed, found.2)
        | Some chan =>
            let sent := forEach festivals
                          (postFestival env now g chan (mentionOf cfg)) found.2 in
            match sent.1 with
            | Completed =>
                let configs := <[g_id g := store_cfg cfg]> (guildConfigs sent.2) in
                (Completed, {| guildConfigs := configs;
                               wishCache := wishCache sent.2;
                               trace := trace sent.2 ++ [WriteConfigs configs] |})
            | Threw => (Threw, sent.2)
            end
        end
    end.
Proof.
  cbv zeta. unfold runGuild, bind, getConfigs. fold (mentionOf (cfgFor (guildConfigs w) (g_id g))).
  destruct (List.filter _ raw) as [|f festivals]; [done |].
  destruct (findChannel env g _ w) as [[chan|] w1]; [| done]. cbn [fst snd].
  by destruct (forEach (f :: festivals) _ w1) as [[] w2].
Qed.

Lemma forEach_postFestival_same_configs (env : Env) (now : Now) (g : Guild)
    (chan : Channel) (mentionText : string) (festivals : list Festival) :
  keeps same_configs (forEach festivals (postFestival env now g chan mentionText)).
Proof.
  refine (keeps_forEach _ _ _ _). intros fest _. apply postFestival_same_configs.
Qed.

(** The settings of every guild, as the store gives them, are as before. *)
Definition same_settings (w w' : World) : Prop :=
  forall g, cfgFor (guildConfigs w') g = cfgFor (guildConfigs w) g.

#[local] Instance same_settings_preorder : PreOrder same_settings.
Proof.
  split.
  - by intros w g.
  - intros w1 w2 w3 H12 H23 g. by rewrite H23, H12.
Qed.







(** What an accepted set-categories command stores for its guild. *)
Lemma setreligions_stored (env : Env) (gid list_opt : string) (w : World) :
  parse_religions list_opt <> [] ->
  let w0 := {| guildConfigs := <[gid := store_cfg (cfgFor (guildConfigs w) gid)]> (guildConfigs w);
               wishCache := wishCache w; trace := trace w |} in
  religions (cfgFor (guildConfigs (runCommand env gid (setreligions list_opt) w0).2) gid)
  = set_spread [] (parse_religions list_opt).
Proof.
  intros Hparsed. cbv zeta. unfold runCommand.
  destruct (parse_religions list_opt) as [|x rest] eqn:Hp; [done |].
  simpl. by rewrite cfgFor_alter_eq.
Qed.

(** The pieces the set-categories command cuts its argument into. *)
Definition pieces (list_opt : string) : list string :=
  List.map Js.trim (split_list (Js.toLowerCase list_opt)).




(** ** The loop of the daily run *)



(** The catch-all of [runDaily] leaves the world as the loop left it. *)
Lemma runDaily_world (env : Env) (now : Now) (raw : list Festival)
    (guilds : list Guild) (w : World) :
  runDaily env now raw guilds w = (tt, (runGuilds env now raw guilds w).2).
Proof. unfold runDaily, bind. by destruct (runGuilds env now raw guilds w). Qed.

(** A guild for which no festival is kept is skipped: nothing is read
    from or written to the outside. *)
Lemma runGuild_nothing_kept (env : Env) (now : Now) (raw : list Festival)
    (g : Guild) (w : World) :
  List.filter (keep (cfgFor (guildConfigs w) (g_id g))) raw = [] ->
  runGuild env now raw g w = (Completed, w).
Proof. intros Hnone. rewrite runGuild_run. cbv zeta. by rewrite Hnone. Qed.


(** When the builder accepts every embed, the loop over the festivals
    runs to its end. *)
Lemma postFestival_accepted (env : Env) (now : Now) (g : Guild) (chan : Channel)
    (mentionText : string) (fest : Festival) (w : World) :
  (forall e, embed_accepted env e = true) ->
  (postFestival env now g chan mentionText fest w).1 = Completed.
Proof.
  intros Hacc. unfold postFestival, bind, buildEmbed.
  destruct (makeAIWish env _ _ _ w) as [wishText w1].
  destruct (getFestivalImage env _ _ _ w1) as [imageUrl w2].
  by rewrite Hacc.
Qed.

Lemma forEach_postFestival_accepted (env : Env) (now : Now) (g : Guild)
    (chan : Channel) (mentionText : string) (festivals : list Festival) (w : World) :
  (forall e, embed_accepted env e = true) ->
  (forEach festivals (postFestival env now g chan mentionText) w).1 = Completed.
Proof.
  intros Hacc. revert w. induction festivals as [|fest festivals IH]; intros w; [done |].
  cbn [forEach]. unfold bind.
  pose proof (postFestival_accepted env now g chan mentionText fest w Hacc) as Hfest.
  destruct (postFestival env now g chan mentionText fest w) as [o w1].
  cbn [fst] in Hfest. subst o. apply IH.
Qed.

Lemma runGuild_accepted (env : Env) (now : Now) (raw : list Festival)
    (g : Guild) (w : World) :
  (forall e, embed_accepted env e = true) ->
  (runGuild env now raw g w).1 = Completed.
Proof.
  intros Hacc. rewrite runGuild_run. cbv zeta.
  destruct (List.filter _ raw) as [|f festivals]; [done |].
  destruct (findChannel env g _ w) as [[chan|] wf]; cbn [fst snd]; [| done].
  by rewrite (forEach_postFestival_accepted env now g chan _ (f :: festivals) wf Hacc).
Qed.

(** ** The settings file is written by nothing but a save *)






(** ** Persisting the settings of a processed guild *)


Definition guild1 : Guild :=
  {| g_id := "g1"; g_name := "Gamers";
     g_channels := [ {| ch_id := "c0"; ch_type := GuildVoice; ch_name := "General" |};
                     {| ch_id := "c1"; ch_type := GuildText; ch_name := "General" |} ] |}.

Definition diwali : Festival :=
  {| name := "Diwali/Deepavali"; description := "Festival of lights";
     type := ["Observance"]; primary_type := "Observance" |}.

Definition today : Now :=
  {| dateISO := "2024-11-01"; dateStr := "Friday, 01 Nov 2024" |}.





(** ** The festivals a run posts *)

(** The titles of the embeds sent, in order. *)
Definition posted (tr : list Event) : list string :=
  flat_map (fun e => match e with
                     | Send _ _ _ embed => [e_title embed]
                     | _ => []
                     end) tr.

Definition title_of (f : Festival) : string := name f +:+ " — Wishes".

(** The messages sent, in order: the guild, the channel and the title of
    the embed. *)
Definition deliveries (tr : list Event) : list (string * string * string) :=
  flat_map (fun e => match e with
                     | Send guild channel _ embed => [(guild, channel, e_title embed)]
                     | _ => []
                     end) tr.

(** The delivery of a festival to a channel of a guild. *)
Definition delivery (g : Guild) (chan : Channel) (f : Festival)
    : string * string * string :=
  (g_id g, ch_id chan, title_of f).

Lemma posted_app (tr1 tr2 : list Event) :
  posted (tr1 ++ tr2) = posted tr1 ++ posted tr2.
Proof. apply flat_map_app. Qed.

Lemma deliveries_app (tr1 tr2 : list Event) :
  deliveries (tr1 ++ tr2) = deliveries tr1 ++ deliveries tr2.
Proof. apply flat_map_app. Qed.

Lemma posted_deliveries (tr : list Event) :
  posted tr = List.map snd (deliveries tr).
Proof.
  induction tr as [|e tr IH]; [done |].
  change (e :: tr) with ([e] ++ tr).
  rewrite posted_app, deliveries_app, map_app, IH. by destruct e.
Qed.

Lemma deliveries_nothing (w w' : World) :
  appends (delivers_to None) w w' -> deliveries (trace w') = deliveries (trace w).
Proof.
  intros (evs & -> & Hevs). rewrite deliveries_app.
  assert (deliveries evs = []) as ->; [| by rewrite app_nil_r].
  induction Hevs as [|e evs He _ IH]; [done |].
  by destruct e.
Qed.

Lemma posted_nothing (w w' : World) :
  appends (delivers_to None) w w' -> posted (trace w') = posted (trace w).
Proof.
  intros Hquiet. by rewrite !posted_deliveries, (deliveries_nothing w w').
Qed.

(** A festival whose embed is built is delivered; one whose embed is
    refused is not. *)
Lemma postFestival_deliveries (env : Env) (now : Now) (g : Guild) (chan : Channel)
    (mentionText : string) (fest : Festival) (w : World) :
  let res := postFestival env now g chan mentionText fest w in
  deliveries (trace res.2) =
    deliveries (trace w) ++
    match res.1 with
    | Completed => [delivery g chan fest]
    | Threw => []
    end.
Proof.
  cbv zeta. unfold postFestival, bind, buildEmbed.
  pose proof (makeAIWish_appends env (dateISO now) (name fest)
                (classifyFaith (name fest)) None w) as Hwish.
  destruct (makeAIWish env _ _ _ w) as [wishText w1]. cbn [snd] in Hwish.
  pose proof (getFestivalImage_appends env (dateISO now) (name fest)
                (classifyFaith (name fest)) None w1) as Himg.
  destruct (getFestivalImage env _ _ _ w1) as [imageUrl w2]. cbn [snd] in Himg.
  destruct (embed_accepted env _); simpl.
  - rewrite deliveries_app.
    by rewrite (deliveries_nothing _ _ Himg), (deliveries_nothing _ _ Hwish).
  - by rewrite (deliveries_nothing _ _ Himg), (deliveries_nothing _ _ Hwish), app_nil_r.
Qed.

(** The loop over the festivals delivers them in order, up to the first
    whose embed is refused. *)
Lemma forEach_deliveries (env : Env) (now : Now) (g : Guild) (chan : Channel)
    (mentionText : string) (festivals : list Festival) (w : World) :
  let res := forEach festivals (postFestival env now g chan mentionText) w in
  exists sent rest,
    festivals = sent ++ rest /\
    deliveries (trace res.2) = deliveries (trace w) ++ List.map (delivery g chan) sent /\
    match res.1 with
    | Completed => rest = []
    | Threw => rest <> []
    end.
Proof.
  cbv zeta. revert w. induction festivals as [|fest festivals IH]; intros w.
  - exists [], []. simpl. by rewrite app_nil_r.
  - cbn [forEach]. unfold bind.
    pose proof (postFestival_deliveries env now g chan mentionText fest w) as Hfest.
    cbv zeta in Hfest.
    destruct (postFestival env now g chan mentionText fest w) as [[|] w1];
      cbn [fst snd] in Hfest; cbv beta iota.
    + destruct (IH w1) as (sent & rest & -> & Hsent & Hrest).
      exists (fest :: sent), rest. split_and!; [done | | done].
      by rewrite Hsent, Hfest, <- app_assoc.
    + exists [], (fest :: festivals). split_and!; [done | | done].
      exact Hfest.
Qed.

(** What the body of the loop delivers for a guild: the festivals kept
    for it, in the order of the day's list and up to the first whose
    embed is refused, to the channel found; nothing without a channel. *)
Lemma runGuild_deliveries (env : Env) (now : Now) (raw : list Festival) (g : Guild)
    (w : World) :
  let cfg := cfgFor (guildConfigs w) (g_id g) in
  let res := runGuild env now raw g w in
  match (findChannel env g (channelId cfg) w).1 with
  | Some chan =>
      exists sent rest,
        List.filter (keep cfg) raw = sent ++ rest /\
        deliveries (trace res.2)
          = deliveries (trace w) ++ List.map (delivery g chan) sent /\
        (res.1 = Completed <-> rest = [])
  | None =>
      res = (Completed, (findChannel env g (channelId cfg) w).2) \/
      res = (Completed, w)
  end.
Proof.
  intros cfg res. unfold res. rewrite runGuild_run. cbv zeta. fold cfg.
  pose proof (findChannel_appends env g (channelId cfg) None w) as Hfound.
  destruct (List.filter (keep cfg) raw) as [|f festivals].
  { destruct (findChannel env g (channelId cfg) w).1; [| by right].
    exists [], []. simpl. by rewrite app_nil_r. }
  destruct (findChannel env g (channelId cfg) w) as [[chan|] wf];
    cbn [fst snd] in *; [| by left].
  destruct (forEach_deliveries env now g chan (mentionOf cfg) (f :: festivals) wf)
    as (sent & rest & Hsplit & Hsent & Hrest).
  rewrite (deliveries_nothing _ _ Hfound) in Hsent.
  exists sent, rest. split; [done |].
  destruct (forEach (f :: festivals) _ wf) as [[|] w2]; cbn [fst snd] in *.
  - cbn [trace]. rewrite deliveries_app, Hsent. simpl. by rewrite app_nil_r.
  - split; [done |]. split; [done | by intros ->].
Qed.

(** ** Threads as the configured channel *)

Lemma resolveChannel_guild_text (env : Env) (g : Guild) (channelId : option string)
    (w : World) (ch : Channel) :
  (resolveChannel env g channelId w).1 = Some ch -> ch_type ch = GuildText.
Proof.
  unfold resolveChannel, bind, get_trace, emit, ret.
  destruct channelId as [id|]; [| done].
  destruct (Js.truthy id); simpl; [| done].
  destruct (channels_fetch env (trace w) (g_id g) id) as [c|]; [| done].
  destruct (ChannelType_eqb (ch_type c) GuildText) eqn:Ht; simpl; [| done].
  intros [= <-]. by apply ChannelType_eqb_spec.
Qed.

(** The lookup of a channel that is not a guild text channel gives
    [null]. *)
Lemma resolveChannel_not_text (env : Env) (g : Guild) (id : string) (w : World)
    (ch : Channel) :
  channels_fetch env (trace w) (g_id g) id = Some ch ->
  ch_type ch <> GuildText ->
  (resolveChannel env g (Some id) w).1 = None.
Proof.
  intros Hfetch Htype.
  destruct (resolveChannel env g (Some id) w).1 as [c|] eqn:Hres; [| done].
  pose proof (resolveChannel_guild_text env g (Some id) w c Hres) as Hc.
  revert Hres. unfold resolveChannel, bind, get_trace, emit, ret.
  destruct (Js.truthy id); simpl; [| done]. rewrite Hfetch.
  destruct (ChannelType_eqb (ch_type ch) GuildText); simpl; [| done].
  intros [= ->]. done.
Qed.

Lemma findChannel_fallback (env : Env) (g : Guild) (channelId : option string)
    (w : World) :
  (resolveChannel env g channelId w).1 = None ->
  (findChannel env g channelId w).1 = fallbackChannel g.
Proof.
  intros Hres. unfold findChannel, bind.
  destruct (resolveChannel env g channelId w) as [r w1]. simpl in *. by subst.
Qed.

Lemma fallbackChannel_spec (g : Guild) (c : Channel) :
  fallbackChannel g = Some c ->
  In c (g_channels g) /\ ch_type c = GuildText /\
  In (Js.toLowerCase (ch_name c)) ["announcements"; "general"].
Proof.
  unfold fallbackChannel. intros Hfind. apply find_some in Hfind as [Hin Hc].
  apply andb_true_iff in Hc as [Ht Hn].
  split_and!; [done | by apply ChannelType_eqb_spec | by apply arr_includes_spec].
Qed.

Lemma find_first {A} (f : A -> bool) (l : list A) (x : A) :
  List.find f l = Some x ->
  exists before after,
    l = before ++ x :: after /\ f x = true /\
    Forall (fun y => f y = false) before.
Proof.
  induction l as [|y l IH]; simpl; [done |].
  destruct (f y) eqn:Hy.
  - intros [= <-]. by exists [], l.
  - intros Hfind. destruct (IH Hfind) as (before & after & -> & Hx & Hb).
    exists (y :: before), after. split_and!; [done | done | by constructor].
Qed.

(** A cached channel the run may fall back on: a guild text channel
    named announcements or general, in any case. *)
Definition fallback_candidate (c : Channel) : Prop :=
  ch_type c = GuildText /\
  In (Js.toLowerCase (ch_name c)) ["announcements"; "general"].

Lemma fallback_candidate_spec (c : Channel) :
  ChannelType_eqb (ch_type c) GuildText &&
  Js.arr_includes ["announcements"; "general"] (Js.toLowerCase (ch_name c)) = true
  <-> fallback_candidate c.
Proof.
  unfold fallback_candidate.
  by rewrite andb_true_iff, ChannelType_eqb_spec, arr_includes_spec.
Qed.

(** [c] is the first candidate among the cached channels of [g]. *)
Definition first_candidate (g : Guild) (c : Channel) : Prop :=
  exists before after,
    g_channels g = before ++ c :: after /\
    fallback_candidate c /\
    Forall (fun c' => ~ fallback_candidate c') before.

(** The fall-back is the first candidate of the guild's cache, and is
    missing only when the cache holds no candidate. *)
Lemma fallbackChannel_first (g : Guild) :
  match fallbackChannel g with
  | Some c => first_candidate g c
  | None => Forall (fun c' => ~ fallback_candidate c') (g_channels g)
  end.
Proof.
  unfold fallbackChannel.
  destruct (List.find _ (g_channels g)) as [c|] eqn:Hfind.
  - apply find_first in Hfind as (before & after & Hl & Hc & Hb).
    exists before, after. split_and!; [done | by apply fallback_candidate_spec |].
    eapply Forall_impl; [exact Hb |]. intros c' Hc' Hcand.
    apply fallback_candidate_spec in Hcand. cbv beta in Hc'. congruence.
  - apply List.Forall_forall. intros c' Hin Hcand.
    apply fallback_candidate_spec in Hcand.
    pose proof (find_none _ _ Hfind c' Hin) as Hc'. cbv beta in Hc'. congruence.
Qed.

(** Every message of the body of the loop goes to the channel found; when
    none is found there is no message. *)
Lemma runGuild_appends (env : Env) (now : Now) (raw : list Festival) (g : Guild)
    (w : World) :
  let cfg := cfgFor (guildConfigs w) (g_id g) in
  let target := ch_id <$> (findChannel env g (channelId cfg) w).1 in
  appends (delivers_to target) w (runGuild env now raw g w).2.
Proof.
  intros cfg target. rewrite runGuild_run. cbv zeta. fold cfg.
  destruct (List.filter (keep cfg) raw) as [|f festivals]; [reflexivity |].
  pose proof (findChannel_appends env g (channelId cfg) target w) as Hfound.
  unfold target in *.
  destruct (findChannel env g (channelId cfg) w) as [[chan|] wf];
    cbn [fst snd] in *; [| done].
  etransitivity; [exact Hfound |].
  assert (Hposted : keeps (appends (delivers_to (Some (ch_id chan))))
            (forEach (f :: festivals) (postFestival env now g chan (mentionOf cfg)))).
  { refine (keeps_forEach _ _ _ _). intros fest _. apply postFestival_appends. }
  specialize (Hposted wf).
  destruct (forEach (f :: festivals) _ wf) as [[|] w2]; cbn [fst snd] in *; [| done].
  etransitivity; [exact Hposted |].
  eexists [_]. split; [done | by constructor].
Qed.

(** C10: the set-channel command accepts a public or private thread and
    stores its id; the channel lookup of the daily run gives [null] for
    every channel that is not a guild text channel; so, for a guild whose
    configured channel is a thread, the channel the run posts to is the
    fall-back.  When the guild's cache holds a guild text channel named
    announcements or general (whatever its case), the fall-back is the
    first such channel, and the festivals kept for the guild are
    delivered there, in order (all of them, unless the building of an
    embed throws) and nowhere else; only when the cache holds no such
    channel is there no fall-back, and then the guild is skipped: no
    message is sent and nothing is generated for it. *)
Theorem thread_channel_never_used :
  (forall (env : Env) (i : Interaction) (gid : string) (channel : Channel) (w : World),
     isChatInputCommand i = true ->
     guildId i = Some gid -> Js.truthy gid = true ->
     command i = setwisheschannel channel ->
     In (ch_type channel) [PublicThread; PrivateThread] ->
     let w' := (onInteraction env i w).2 in
     channelId (cfgFor (guildConfigs w') gid) = Some (ch_id channel) /\
     trace w' = trace w ++
       [WriteConfigs (guildConfigs w');
        Reply ("✅ Will post in <#" +:+ ch_id channel +:+ "> daily at **01:00 "
               +:+ TZ env +:+ "**.")]) /\
  (forall (env : Env) (g : Guild) (id : string) (w : World) (ch : Channel),
     channels_fetch env (trace w) (g_id g) id = Some ch ->
     ch_type ch <> GuildText ->
     (resolveChannel env g (Some id) w).1 = None) /\
  (forall (env : Env) (now : Now) (raw : list Festival) (g : Guild) (w : World)
          (id : string) (ch : Channel),
     channelId (cfgFor (guildConfigs w) (g_id g)) = Some id ->
     channels_fetch env (trace w) (g_id g) id = Some ch ->
     In (ch_type ch) [PublicThread; PrivateThread] ->
     let cfg := cfgFor (guildConfigs w) (g_id g) in
     let res := runGuild env now raw g w in
     (findChannel env g (Some id) w).1 = fallbackChannel g /\
     appends (delivers_to (ch_id <$> fallbackChannel g)) w res.2 /\
     match fallbackChannel g with
     | Some c =>
         first_candidate g c /\
         exists sent rest,
           List.filter (keep cfg) raw = sent ++ rest /\
           deliveries (trace res.2)
             = deliveries (trace w) ++ List.map (delivery g c) sent /\
           (res.1 = Completed <-> rest = []) /\
           ((forall e, embed_accepted env e = true) -> rest = [])
     | None =>
         Forall (fun c => ~ fallback_candidate c) (g_channels g) /\
         res.1 = Completed /\
         appends (fun e => exists gid c, e = FetchChannel gid c) w res.2
     end).
Proof.
  split_and!.
  - intros env i gid channel w Hchat Hgid Ht Hcmd Hthread. cbv zeta.
    rewrite (onInteraction_in_guild env i gid w Hchat Hgid Ht), Hcmd.
    unfold runCommand.
    assert (Hok : existsb (ChannelType_eqb (ch_type channel))
                    [GuildText; PublicThread; PrivateThread] = true).
    { apply channel_accepted_spec. by right. }
    rewrite Hok. simpl. rewrite cfgFor_alter_eq, spread_set_channelId. simpl.
    split; [done |]. by rewrite <- app_assoc.
  - apply resolveChannel_not_text.
  - intros env now raw g w id ch Hcfg Hfetch Hthread cfg res.
    assert (Htype : ch_type ch <> GuildText).
    { intros Heq. rewrite Heq in Hthread. by destruct Hthread as [?|[?|[]]]. }
    pose proof (findChannel_fallback env g (Some id) w
                  (resolveChannel_not_text env g id w ch Hfetch Htype)) as Hfb.
    pose proof (fallbackChannel_first g) as Hfirst.
    pose proof (runGuild_deliveries env now raw g w) as Hsent.
    cbv zeta in Hsent. rewrite Hcfg, Hfb in Hsent. unfold res, cfg.
    split_and!.
    + exact Hfb.
    + rewrite <- Hfb, <- Hcfg. apply runGuild_appends.
    + destruct (fallbackChannel g) as [c|].
      { split; [done |]. destruct Hsent as (sent & rest & Hkept & Hsent & Hrest).
        exists sent, rest. split_and!; [done | done | done |].
        intros Hacc. apply Hrest. by apply runGuild_accepted. }
      split; [done |].
      assert (Hfetched : appends (fun e => exists gid c, e = FetchChannel gid c) w
                           (findChannel env g (Some id) w).2).
      { unfold findChannel, resolveChannel, bind, get_trace, emit, ret.
        destruct (negb (Js.truthy id)); simpl; [reflexivity |].
        exists [FetchChannel (g_id g) id]. split.
        - by destruct (channels_fetch env (trace w) (g_id g) id) as [c|];
            [destruct (negb (ChannelType_eqb (ch_type c) GuildText)) |].
        - repeat constructor. by eexists _, _. }
      destruct Hsent as [-> | ->]; cbn [fst snd]; [done |].
      split; [done | reflexivity].
Qed.

Definition thread1 : Channel :=
  {| ch_id := "t1"; ch_type := PublicThread; ch_name := "wishes" |}.

Definition env_thread : Env :=
  {| TZ := "Asia/Kolkata";
     genAI := None;
     IMAGE_PROVIDER := "pexels";
     PEXELS_KEY := "";
     pexels := fun _ _ => PexelsThrows;
     random := fun _ => 0%Q;
     channels_fetch := fun _ _ id =>
       if String.eqb id "t1" then Some thread1 else None;
     embed_accepted := within_limits |}.

(** A guild picks a thread as its channel; the next run posts Diwali to
    its general channel instead. *)
Lemma thread_channel_never_used_witness :
  let i := {| isChatInputCommand := true; guildId := Some "g1";
              command := setwisheschannel thread1 |} in
  let w := (onInteraction env_thread i world0).2 in
  channelId (cfgFor (guildConfigs w) "g1") = Some "t1" /\
  (findChannel env_thread guild1 (Some "t1") w).1
    = Some {| ch_id := "c1"; ch_type := GuildText; ch_name := "General" |} /\
  deliveries (trace (runGuild env_thread today [diwali] guild1 w).2)
    = [("g1", "c1", title_of diwali)].
Proof.
  intros i w.
  destruct thread_channel_never_used as (Hset & _ & Hrun).
  destruct (Hset env_thread i "g1" thread1 world0 eq_refl eq_refl eq_refl eq_refl)
    as [Hid _]; [by left |].
  destruct (Hrun env_thread today [diwali] guild1 w "t1" thread1 Hid eq_refl)
    as (Hfb & _ & Hsent); [by left |].
  change (fallbackChannel guild1)
    with (Some {| ch_id := "c1"; ch_type := GuildText; ch_name := "General" |})
    in Hfb, Hsent.
  destruct Hsent as (_ & sent & rest & Hkept & Hsent & Hrest & _).
  assert (Hall : rest = []) by (apply Hrest; by vm_compute).
  assert (Hdiwali : sent = [diwali]).
  { subst rest. rewrite app_nil_r in Hkept. rewrite <- Hkept. by vm_compute. }
  subst sent. split_and!; [exact Hid | exact Hfb |].
  etransitivity; [exact Hsent |]. by vm_compute.
Defined.

(** What the body of the loop posts for a guild with a channel: the
    festivals kept for it, in the order of the day's list, up to the
    first whose embed is refused. *)
Lemma runGuild_posted (env : Env) (now : Now) (raw : list Festival) (g : Guild)
    (w : World) :
  let cfg := cfgFor (guildConfigs w) (g_id g) in
  let res := runGuild env now raw g w in
  (findChannel env g (channelId cfg) w).1 <> None ->
  exists sent rest,
    List.filter (keep cfg) raw = sent ++ rest /\
    posted (trace res.2) = posted (trace w) ++ List.map title_of sent /\
    (res.1 = Completed <-> rest = []).
Proof.
  intros cfg res Hfound.
  pose proof (runGuild_deliveries env now raw g w) as Hsent.
  cbv zeta in Hsent. fold cfg res in Hsent.
  destruct (findChannel env g (channelId cfg) w).1 as [chan|]; [| done].
  destruct Hsent as (sent & rest & Hkept & Hsent & Hrest).
  exists sent, rest. split_and!; [done | | done].
  rewrite !posted_deliveries, Hsent, map_app, map_map. f_equal.
Qed.

(** C1: the daily run keeps an event for a destination exactly when the
    event's name is classified, its category is one of the destination's
    enabled ones, and either majorOnly is off or the event is major; the
    events kept are the ones posted to the destination's channel, in
    order: all of them when the body of the loop runs to its end, as it
    does when the builder accepts every embed, and those before the
    first whose embed the builder refuses otherwise.  A
    destination whose enabled list is just hindu therefore drops every
    event classified muslim or christian and every unclassified one,
    whatever majorOnly is. *)
Theorem daily_filter_rule (cfg : Cfg) (rawFestivals : list Festival) (f : Festival) :
  (In f (List.filter (keep cfg) rawFestivals) <->
     In f rawFestivals /\
     classifyFaith (name f) <> "" /\
     In (classifyFaith (name f)) (religions cfg) /\
     (majorOnly cfg = false \/ isMajorFestival f = true)) /\
  (religions cfg = ["hindu"] ->
     classifyFaith (name f) = "muslim" \/
     classifyFaith (name f) = "christian" \/
     classifyFaith (name f) = "" ->
     ~ In f (List.filter (keep cfg) rawFestivals)) /\
  (forall (env : Env) (now : Now) (g : Guild) (w : World),
     cfgFor (guildConfigs w) (g_id g) = cfg ->
     (findChannel env g (channelId cfg) w).1 <> None ->
     let res := runGuild env now rawFestivals g w in
     exists sent rest,
       List.filter (keep cfg) rawFestivals = sent ++ rest /\
       posted (trace res.2) = posted (trace w) ++ List.map title_of sent /\
       (res.1 = Completed <-> rest = []) /\
       ((forall e, embed_accepted env e = true) -> rest = [])).
Proof.
  split_and!.
  - rewrite filter_In, keep_spec. tauto.
  - intros Hrel Hcls. rewrite filter_In, keep_spec, Hrel.
    intros [_ [Hne [Hin _]]]. simpl in Hin.
    destruct Hcls as [H | [H | H]]; rewrite H in Hin, Hne;
      [destruct Hin as [?|[]]; discriminate
      | destruct Hin as [?|[]]; discriminate | done].
  - intros env now g w <- Hfound res.
    destruct (runGuild_posted env now rawFestivals g w Hfound)
      as (sent & rest & Hkept & Hsent & Hrest).
    exists sent, rest. split_and!; [done | done | done |].
    intros Hacc. apply Hrest. by apply runGuild_accepted.
Qed.

Definition eid : Festival :=
  {| name := "Eid al-Fitr"; description := ""; type := ["National holiday"];
     primary_type := "National holiday" |}.

Definition hindu_only : Cfg :=
  {| channelId := None; lang := "hinglish"; religions := ["hindu"];
     mention := "none"; majorOnly := false |}.

(** A guild that enabled hindu only: of Eid and Diwali, Diwali alone is
    kept and posted. *)
Lemma daily_filter_rule_witness :
  let w := {| guildConfigs := {[ "g1" := store_cfg hindu_only ]};
              wishCache := ∅; trace := [] |} in
  ~ In eid (List.filter (keep hindu_only) [eid; diwali]) /\
  posted (trace (runGuild env_down today [eid; diwali] guild1 w).2)
  = [title_of diwali].
Proof.
  intros w.
  destruct (daily_filter_rule hindu_only [eid; diwali] eid) as (_ & Hdrop & Hpost).
  split.
  - apply Hdrop; [reflexivity | left; reflexivity].
  - assert (Hcfg : cfgFor (guildConfigs w) (g_id guild1) = hindu_only)
      by (vm_compute; reflexivity).
    assert (Hfound : (findChannel env_down guild1 (channelId hindu_only) w).1 <> None)
      by (vm_compute; discriminate).
    destruct (Hpost env_down today guild1 w Hcfg Hfound)
      as (sent & rest & Hkept & Hsent & Hrest & _).
    assert (Hall : rest = []) by (apply Hrest; by vm_compute).
    assert (Hdiwali : sent = [diwali]).
    { subst rest. rewrite app_nil_r in Hkept. rewrite <- Hkept. by vm_compute. }
    subst sent. exact Hsent.
Defined.

(** * Further properties of the code *)

(** ** The keys of the cache *)

Lemma str_app_cons (c : ascii) (s t : string) :
  String c s +:+ t = String c (s +:+ t).
Proof. reflexivity. Qed.

Lemma str_app_nil (t : string) : "" +:+ t = t.
Proof. reflexivity. Qed.

Lemma string_app_assoc (a b c : string) : (a +:+ b) +:+ c = a +:+ (b +:+ c).
Proof.
  induction a as [|x a IH]; [done |]. by rewrite !str_app_cons, IH.
Qed.

Lemma string_app_length (a b : string) :
  String.length (a +:+ b) = (String.length a + String.length b)%nat.
Proof.
  induction a as [|x a IH]; [done |]. rewrite str_app_cons. simpl. by rewrite IH.
Qed.

(** The date holds no vertical bar, as every [YYYY-MM-DD] does. *)
Definition bar_free (dateISO : string) : Prop :=
  Js.includes dateISO "|" = false.

Lemma bar_free_cons (c : ascii) (s : string) :
  bar_free (String c s) <-> c <> "|"%char /\ bar_free s.
Proof.
  unfold bar_free. cbn [Js.includes Js.startsWith].
  destruct (Ascii.eqb_spec "|" c) as [<-|Hne]; simpl.
  - split; [done | by intros [? _]].
  - split; [by intros ? | by intros [_ ?]].
Qed.

Lemma cacheKey_inj (d1 d2 l1 l2 : string) :
  bar_free d1 -> bar_free d2 ->
  cacheKey d1 l1 = cacheKey d2 l2 -> d1 = d2 /\ l1 = l2.
Proof.
  unfold cacheKey. revert d2.
  induction d1 as [|c d1 IH]; intros [|c2 d2] H1 H2 Heq.
  - rewrite !str_app_nil in Heq. by injection Heq.
  - rewrite str_app_nil, !str_app_cons in Heq. injection Heq as <- _.
    apply bar_free_cons in H2 as [Hc _]. done.
  - rewrite str_app_nil, !str_app_cons in Heq. injection Heq as -> _.
    apply bar_free_cons in H1 as [Hc _]. done.
  - rewrite !str_app_cons in Heq. injection Heq as -> Heq.
    apply bar_free_cons in H1 as [_ H1]. apply bar_free_cons in H2 as [_ H2].
    destruct (IH d2 H1 H2 Heq) as [-> ->]. done.
Qed.

(** What a call of [makeAIWish] or [getFestivalImage] does to the cache:
    nothing, or one write under its own key. *)
Lemma makeAIWish_cache (env : Env) (dateISO name faith : string) (w : World) :
  let res := makeAIWish env dateISO name faith w in
  wishCache res.2 = wishCache w \/
  wishCache res.2 = <[wishKey dateISO name := res.1]> (wishCache w).
Proof.
  cbv zeta.
  destruct (truthy_opt (wishCache w !! wishKey dateISO name)) eqn:Hc.
  - destruct (wishCache w !! wishKey dateISO name) as [v|] eqn:Hk; [| done].
    left. by rewrite (makeAIWish_hit env dateISO name faith w v Hk Hc).
  - destruct (makeAIWish_miss env dateISO name faith w Hc) as (Ht & _ & _ & Hw & _).
    right. by rewrite Hw, Ht.
Qed.

Lemma getFestivalImage_cache (env : Env) (dateISO name faith : string) (w : World) :
  let res := getFestivalImage env dateISO name faith w in
  wishCache res.2 = wishCache w \/
  wishCache res.2 = <[imgKey dateISO name := res.1]> (wishCache w).
Proof.
  cbv zeta.
  destruct (truthy_opt (wishCache w !! imgKey dateISO name)) eqn:Hc.
  - destruct (wishCache w !! imgKey dateISO name) as [v|] eqn:Hk; [| done].
    left. by rewrite (getFestivalImage_hit env dateISO name faith w v Hk Hc).
  - destruct (getFestivalImage_miss env dateISO name faith w Hc) as (Hu & _ & Hw & _).
    rewrite Hw, Hu. destruct (Js.truthy _); [by right | by left].
Qed.

(** X1: for dates without a vertical bar, the key of a wish determines
    its date and name, so does the key of an image, and no wish key is an
    image key; hence generating the wish of one (date, name) leaves the
    cached wish of every other (date, name) and every cached image as
    they were, and fetching an image leaves every cached wish and every
    other image as they were. *)
Theorem cache_entries_separate
    (env : Env) (d n faith d' n' : string) (w : World) :
  bar_free d -> bar_free d' ->
  (wishKey d n = wishKey d' n' -> d = d' /\ n = n') /\
  (imgKey d n = imgKey d' n' -> d = d' /\ n = n') /\
  wishKey d n <> imgKey d' n' /\
  (let w1 := (makeAIWish env d n faith w).2 in
   wishCache w1 !! imgKey d' n' = wishCache w !! imgKey d' n' /\
   ((d, n) <> (d', n') ->
    wishCache w1 !! wishKey d' n' = wishCache w !! wishKey d' n')) /\
  (let w2 := (getFestivalImage env d n faith w).2 in
   wishCache w2 !! wishKey d' n' = wishCache w !! wishKey d' n' /\
   ((d, n) <> (d', n') ->
    wishCache w2 !! imgKey d' n' = wishCache w !! imgKey d' n')).
Proof.
  intros Hd Hd'.
  assert (Hwish : wishKey d n = wishKey d' n' -> d = d' /\ n = n').
  { intros Heq. apply cacheKey_inj in Heq as [-> Heq]; [| done | done].
    by apply (inj (String.append "wish:")) in Heq as ->. }
  assert (Himg : imgKey d n = imgKey d' n' -> d = d' /\ n = n').
  { intros Heq. apply cacheKey_inj in Heq as [-> Heq]; [| done | done].
    by apply (inj (String.append "img:")) in Heq as ->. }
  assert (Hwi : forall a b a' b', bar_free a -> bar_free a' ->
                  wishKey a b <> imgKey a' b').
  { intros a b a' b' Ha Ha' Heq.
    apply cacheKey_inj in Heq as [_ Heq]; [| done | done].
    rewrite !str_app_cons in Heq. discriminate. }
  cbv zeta. split_and!; try done.
  - by apply Hwi.
  - destruct (makeAIWish_cache env d n faith w) as [-> | ->]; [done |].
    rewrite lookup_insert_ne; [done | by apply Hwi].
  - intros Hne. destruct (makeAIWish_cache env d n faith w) as [-> | ->]; [done |].
    rewrite lookup_insert_ne; [done |]. intros Heq. apply Hwish in Heq as [-> ->]. done.
  - destruct (getFestivalImage_cache env d n faith w) as [-> | ->]; [done |].
    rewrite lookup_insert_ne; [done |]. intros Heq. symmetry in Heq. by apply Hwi in Heq.
  - intros Hne. destruct (getFestivalImage_cache env d n faith w) as [-> | ->]; [done |].
    rewrite lookup_insert_ne; [done |]. intros Heq. apply Himg in Heq as [-> ->]. done.
Qed.

Lemma cache_entries_separate_witness :
  wishKey "2024-11-01" "Diwali" <> imgKey "2024-11-01" "Diwali" /\
  (let w1 := (makeAIWish env_down "2024-11-01" "Diwali" "hindu" world0).2 in
   wishCache w1 !! imgKey "2024-11-01" "Diwali" = None).
Proof.
  destruct (cache_entries_separate env_down "2024-11-01" "Diwali" "hindu"
              "2024-11-01" "Diwali" world0 eq_refl eq_refl)
    as (_ & _ & Hne & [Himg _] & _).
  split; [exact Hne | exact Himg].
Defined.

(** ** The image of a festival, once found *)

Lemma getFestivalImage_cached (env : Env) (dateISO name faith : string) (w : World) :
  let res := getFestivalImage env dateISO name faith w in
  Js.truthy res.1 = true ->
  wishCache res.2 !! imgKey dateISO name = Some res.1.
Proof.
  cbv zeta.
  destruct (truthy_opt (wishCache w !! imgKey dateISO name)) eqn:Hc.
  - destruct (wishCache w !! imgKey dateISO name) as [v|] eqn:Hk; [| done].
    by rewrite (getFestivalImage_hit env dateISO name faith w v Hk Hc).
  - destruct (getFestivalImage_miss env dateISO name faith w Hc) as (Hu & _ & Hw & _).
    rewrite Hw, Hu. intros Ht. rewrite Ht. apply lookup_insert_eq.
Qed.

(** X2: once [getFestivalImage] has returned a non-empty URL for a date
    and a name, every later call for them, whatever ran in between and
    whatever the configuration and the provider then are, returns that
    URL and touches nothing: no random draw, no request, no write.  An
    empty result, on the contrary, is not remembered: the cache is as
    before and the entry is still missing, so the next call searches
    again. *)
Theorem image_pinned_once_found
    (env env' : Env) (dateISO name faith faith' : string)
    (between : list Op) (w : World) :
  let first := getFestivalImage env dateISO name faith w in
  (Js.truthy first.1 = true ->
   let w' := execs between first.2 in
   getFestivalImage env' dateISO name faith' w' = (first.1, w')) /\
  (first.1 = "" ->
   wishCache first.2 = wishCache w /\
   truthy_opt (wishCache first.2 !! imgKey dateISO name) = false).
Proof.
  cbv zeta. split.
  - intros Ht.
    pose proof (getFestivalImage_cached env dateISO name faith w Ht) as Hk.
    pose proof (execs_cache_stable between _ _ _ Hk Ht) as Hk'.
    by rewrite (getFestivalImage_hit env' dateISO name faith' _ _ Hk' Ht).
  - intros Hempty.
    destruct (truthy_opt (wishCache w !! imgKey dateISO name)) eqn:Hc.
    + destruct (wishCache w !! imgKey dateISO name) as [v|] eqn:Hk; [| done].
      rewrite (getFestivalImage_hit env dateISO name faith w v Hk Hc) in Hempty.
      simpl in Hempty, Hc. subst v. done.
    + destruct (getFestivalImage_miss env dateISO name faith w Hc) as (Hu & _ & Hw & _).
      rewrite <- Hu, Hempty in Hw. simpl in Hw. by rewrite Hw.
Qed.

(** The image found while the provider answers is still returned when the
    provider is gone. *)
Lemma image_pinned_once_found_witness :
  let first := getFestivalImage env_img "2024-11-01" "Diwali" "hindu" world0 in
  first.1 = "https://img/2-l" /\
  getFestivalImage env_down "2024-11-01" "Diwali" "hindu" first.2
  = (first.1, first.2).
Proof.
  split; [by vm_compute |].
  apply (proj1 (image_pinned_once_found env_img env_down "2024-11-01" "Diwali"
                  "hindu" "hindu" [] world0)).
  by vm_compute.
Defined.

(** ** What [makeAIWish] returns and what it costs *)

(** The number of calls of the text provider in a trace. *)
Definition gemini_calls (tr : list Event) : nat :=
  length (List.filter (fun e => match e with CallGemini _ => true | _ => false end) tr).

Lemma gemini_calls_app (tr1 tr2 : list Event) :
  gemini_calls (tr1 ++ tr2) = (gemini_calls tr1 + gemini_calls tr2)%nat.
Proof. unfold gemini_calls. by rewrite List.filter_app, length_app. Qed.

Lemma accepted_spec (r : GeminiResult) (text : string) :
  accepted r = Some text ->
  exists raw, r = GeminiText raw /\ text = Js.trim raw /\
              (220 <= Js.length text)%nat.
Proof.
  destruct r as [| |raw]; try discriminate. unfold accepted.
  destruct (Js.truthy (Js.trim raw)); cbn [andb]; [| discriminate].
  destruct (Nat.leb_spec 220 (Js.length (Js.trim raw))); [| discriminate].
  intros Heq. injection Heq as <-. by exists raw.
Qed.

(** X3: [makeAIWish] always returns a non-empty text: the entry of the
    cache, or the provider's trimmed answer of at least 220 UTF-16 code
    units, or the fallback template.  The provider is called exactly once when
    the entry is missing or empty and a provider is configured, and not
    at all otherwise. *)
Theorem makeAIWish_output (env : Env) (dateISO name faith : string) (w : World) :
  let res := makeAIWish env dateISO name faith w in
  let cached := wishCache w !! wishKey dateISO name in
  Js.truthy res.1 = true /\
  (cached = Some res.1 \/
   res.1 = fallback name \/
   exists model raw,
     genAI env = Some model /\
     model (trace w) (aiWishPrompt name faith) = GeminiText raw /\
     res.1 = Js.trim raw /\ (220 <= Js.length res.1)%nat) /\
  gemini_calls (trace res.2) =
    (gemini_calls (trace w) +
     (if truthy_opt cached then 0
      else match genAI env with Some _ => 1 | None => 0 end))%nat.
Proof.
  cbv zeta. split; [apply makeAIWish_cached |].
  destruct (truthy_opt (wishCache w !! wishKey dateISO name)) eqn:Hc.
  - destruct (wishCache w !! wishKey dateISO name) as [v|] eqn:Hk; [| done].
    rewrite (makeAIWish_hit env dateISO name faith w v Hk Hc). simpl.
    split; [by left | lia].
  - unfold makeAIWish, bind, cacheGet. fold (wishKey dateISO name). rewrite Hc.
    destruct (genAI env) as [model|]; simpl.
    + destruct (accepted (model (trace w) (aiWishPrompt name faith)))
        as [text|] eqn:Hacc; simpl.
      * apply accepted_spec in Hacc as (raw & Hraw & Htext & Hlen). split.
        -- right; right. by exists model, raw.
        -- rewrite <- app_assoc, gemini_calls_app. reflexivity.
      * split; [by right; left |].
        rewrite <- app_assoc, gemini_calls_app. reflexivity.
    + split; [by right; left |]. rewrite gemini_calls_app. reflexivity.
Qed.

(** ** One wish per festival and day, whatever the guild *)

(** The events of a run: what [w'] has in its trace beyond [w]. *)
Definition new_events (w w' : World) : list Event :=
  drop (length (trace w)) (trace w').

Lemma new_events_app (w w' : World) (evs : list Event) :
  trace w' = trace w ++ evs -> new_events w w' = evs.
Proof. intros Htr. unfold new_events. rewrite Htr. apply drop_app_length. Qed.

(** The embeds of the messages of a trace, in order. *)
Definition sent_embeds (tr : list Event) : list Embed :=
  flat_map (fun e => match e with
                     | Send _ _ _ embed => [embed]
                     | _ => []
                     end) tr.

Lemma sent_embeds_app (tr1 tr2 : list Event) :
  sent_embeds (tr1 ++ tr2) = sent_embeds tr1 ++ sent_embeds tr2.
Proof. apply flat_map_app. Qed.

Lemma sent_embeds_quiet (evs : list Event) :
  Forall (delivers_to None) evs -> sent_embeds evs = [].
Proof.
  induction 1 as [|e evs He _ IH]; [done |]. by destruct e.
Qed.

(** The embed carries, under the title of some festival name, the wish
    the cache of [w] holds for that name and the day. *)
Definition is_cached_wish (dateISO : string) (w : World) (embed : Embed) : Prop :=
  exists n,
    e_title embed = n +:+ " — Wishes" /\
    wishCache w !! wishKey dateISO n = Some (e_description embed) /\
    Js.truthy (e_description embed) = true.

(** From [w] to [w'] the non-empty entries of the cache are kept and
    every message sent carries a wish of the cache of [w']. *)
Definition posts_cached (dateISO : string) (w w' : World) : Prop :=
  cache_stable w w' /\
  exists evs, trace w' = trace w ++ evs /\
              Forall (is_cached_wish dateISO w') (sent_embeds evs).

Lemma is_cached_wish_stable (dateISO : string) (w w' : World) (embed : Embed) :
  cache_stable w w' -> is_cached_wish dateISO w embed -> is_cached_wish dateISO w' embed.
Proof.
  intros Hst (n & Ht & Hk & Hv). exists n. split_and!; [done | by apply Hst | done].
Qed.

#[local] Instance posts_cached_preorder (dateISO : string) :
  PreOrder (posts_cached dateISO).
Proof.
  split.
  - intros w. split; [reflexivity |]. exists []. by rewrite app_nil_r.
  - intros w1 w2 w3 (S12 & e12 & H12 & P12) (S23 & e23 & H23 & P23). split.
    + by etransitivity.
    + exists (e12 ++ e23). split; [by rewrite H23, H12, app_assoc |].
      rewrite sent_embeds_app. apply Forall_app. split; [| done].
      eapply Forall_impl; [exact P12 |]. intros embed. by apply is_cached_wish_stable.
Qed.

(** A step that sends nothing and keeps the non-empty entries. *)
Lemma posts_cached_quiet (dateISO : string) (w w' : World) :
  cache_stable w w' -> appends (delivers_to None) w w' -> posts_cached dateISO w w'.
Proof.
  intros Hst (evs & Htr & Hq). split; [done |]. exists evs. split; [done |].
  by rewrite (sent_embeds_quiet evs Hq).
Qed.

Lemma postFestival_posts_cached (env : Env) (now : Now) (g : Guild)
    (chan : Channel) (mentionText : string) (fest : Festival) :
  keeps (posts_cached (dateISO now)) (postFestival env now g chan mentionText fest).
Proof.
  intros w. unfold postFestival, bind.
  pose proof (makeAIWish_cached env (dateISO now) (name fest)
                (classifyFaith (name fest)) w) as [Hk Hv].
  pose proof (makeAIWish_cache_stable env (dateISO now) (name fest)
                (classifyFaith (name fest)) w) as Hs1.
  pose proof (makeAIWish_appends env (dateISO now) (name fest)
                (classifyFaith (name fest)) None w) as Ha1.
  destruct (makeAIWish env _ _ _ w) as [wishText w1]. cbn [fst snd] in *.
  pose proof (getFestivalImage_cache_stable env (dateISO now) (name fest)
                (classifyFaith (name fest)) w1) as Hs2.
  pose proof (getFestivalImage_appends env (dateISO now) (name fest)
                (classifyFaith (name fest)) None w1) as Ha2.
  destruct (getFestivalImage env _ _ _ w1) as [imageUrl w2]. cbn [fst snd] in *.
  etransitivity; [by apply posts_cached_quiet |].
  etransitivity; [by apply posts_cached_quiet |].
  unfold buildEmbed. destruct (embed_accepted env _); [| reflexivity].
  split; [by apply cache_stable_same |].
  eexists [_]. split; [done |]. constructor; [| done].
  exists (name fest). split_and!; [done | by apply Hs2 | done].
Qed.

Lemma runGuild_posts_cached (env : Env) (now : Now) (raw : list Festival) (g : Guild) :
  keeps (posts_cached (dateISO now)) (runGuild env now raw g).
Proof.
  intros w. rewrite runGuild_run. cbv zeta.
  set (cfg := cfgFor (guildConfigs w) (g_id g)).
  destruct (List.filter (keep cfg) raw) as [|f festivals]; [reflexivity |].
  pose proof (findChannel_appends env g (channelId cfg) None w) as Ha.
  assert (Hs : cache_stable w (findChannel env g (channelId cfg) w).2).
  { unfold findChannel.
    refine (keeps_bind _ _ _ (resolveChannel_cache_stable _ _ _) _ w).
    intros r. refine (keeps_ret _ _). }
  destruct (findChannel env g (channelId cfg) w) as [[chan|] wf]; cbn [fst snd] in *.
  - etransitivity; [by apply posts_cached_quiet |].
    assert (Hposted : keeps (posts_cached (dateISO now))
              (forEach (f :: festivals) (postFestival env now g chan (mentionOf cfg)))).
    { refine (keeps_forEach _ _ _ _). intros fest _. apply postFestival_posts_cached. }
    specialize (Hposted wf).
    destruct (forEach (f :: festivals) _ wf) as [[|] w2]; cbn [fst snd] in *;
      [| exact Hposted].
    etransitivity; [exact Hposted |].
    apply posts_cached_quiet; [by apply cache_stable_same |].
    eexists [_]. split; [done | by constructor].
  - by apply posts_cached_quiet.
Qed.

Lemma string_app_inv_tail (a b t : string) : a +:+ t = b +:+ t -> a = b.
Proof.
  revert b. induction a as [|x a IH]; intros [|y b] Heq.
  - done.
  - apply (f_equal String.length) in Heq.
    rewrite str_app_nil, str_app_cons in Heq. simpl in Heq.
    rewrite string_app_length in Heq. lia.
  - apply (f_equal String.length) in Heq.
    rewrite str_app_nil, str_app_cons in Heq. simpl in Heq.
    rewrite string_app_length in Heq. lia.
  - rewrite !str_app_cons in Heq. injection Heq as -> Heq. by rewrite (IH b Heq).
Qed.

(** X4: in a daily run, two messages with the same title, whatever the
    guilds they go to, carry the same wish: the text of a festival is
    generated once per day and reused, as the comment on the cache says. *)
Theorem one_wish_per_festival
    (env : Env) (now : Now) (raw : list Festival) (guilds : list Guild) (w : World) :
  let sent := sent_embeds (new_events w (runDaily env now raw guilds w).2) in
  forall embed1 embed2,
    In embed1 sent -> In embed2 sent ->
    e_title embed1 = e_title embed2 ->
    e_description embed1 = e_description embed2.
Proof.
  cbv zeta.
  assert (Hrun : keeps (posts_cached (dateISO now)) (runDaily env now raw guilds)).
  { refine (keeps_runDaily _ _ _ _ _ _). apply runGuild_posts_cached. }
  destruct (Hrun w) as (_ & evs & Htr & Hsent).
  rewrite (new_events_app _ _ _ Htr).
  intros embed1 embed2 H1 H2 Htitle.
  rewrite List.Forall_forall in Hsent.
  destruct (Hsent _ H1) as (n1 & Ht1 & Hk1 & _).
  destruct (Hsent _ H2) as (n2 & Ht2 & Hk2 & _).
  rewrite Ht1, Ht2 in Htitle. apply string_app_inv_tail in Htitle. subst n2.
  rewrite Hk1 in Hk2. by injection Hk2.
Qed.

Definition guild2 : Guild :=
  {| g_id := "g2"; g_name := "Creators";
     g_channels := [ {| ch_id := "c7"; ch_type := GuildText;
                        ch_name := "announcements" |} ] |}.

(** Two guilds on Diwali: the second and the first message carry the
    same text. *)
Lemma one_wish_per_festival_witness :
  let sent := sent_embeds (new_events world0
                (runDaily env_down today [diwali] [guild1; guild2] world0).2) in
  length sent = 2%nat /\
  (e_description <$> sent !! 0%nat) = (e_description <$> sent !! 1%nat).
Proof.
  intros sent.
  destruct sent as [|embed1 [|embed2 rest]] eqn:Hsent; try (by vm_compute in Hsent).
  split; [by vm_compute in Hsent; injection Hsent as _ _ <- |].
  simpl. f_equal.
  apply (one_wish_per_festival env_down today [diwali] [guild1; guild2] world0).
  - fold sent. rewrite Hsent. by left.
  - fold sent. rewrite Hsent. by right; left.
  - vm_compute in Hsent. by injection Hsent as <- <- _.
Defined.

(** ** The event source *)

(** A holiday as the JSON of the provider has it: any field but the name
    may be missing. *)
Record Holiday := {
  h_name : string;
  h_description : option string;
  h_type : option (list string);
  h_primary_type : option string
}.

(** What the request of [fetchCalendarific] comes back with: nothing (the
    transport or the parsing failed), or a body whose
    [response.holidays] is an array or is not there. *)
Inductive CalendarificResult :=
  | CalendarificFails
  | CalendarificJson (holidays : option (list Holiday)).

(** The record [fetchCalendarific] makes of a holiday. *)
Definition normalize (h : Holiday) : Festival :=
  {| name := h_name h;
     description := default "" (or_else (h_description h) (Some ""));
     type := default [] (h_type h);
     primary_type := default "" (or_else (h_primary_type h) (Some "")) |}.

(** [fetchCalendarific({ country, year, month, day })], given the key and
    what the request comes back with. *)
Definition fetchCalendarific (CAL_KEY : string) (answer : CalendarificResult)
    : list Festival :=
  if negb (Js.truthy CAL_KEY) then []
  else
    match answer with
    | CalendarificFails => []
    | CalendarificJson None => []
    | CalendarificJson (Some holidays) => List.map normalize holidays
    end.

Lemma runDaily_nothing_kept (env : Env) (now : Now) (raw : list Festival)
    (guilds : list Guild) (w : World) :
  (forall g, In g guilds ->
             List.filter (keep (cfgFor (guildConfigs w) (g_id g))) raw = []) ->
  runDaily env now raw guilds w = (tt, w).
Proof.
  intros Hnone. rewrite runDaily_world.
  assert (Hloop : runGuilds env now raw guilds w = (Completed, w));
    [| by rewrite Hloop].
  unfold runGuilds. induction guilds as [|g guilds IH]; [done |].
  cbn [forEach]. unfold bind.
  rewrite (runGuild_nothing_kept env now raw g w); [| apply Hnone; by left].
  apply IH. intros g' Hg'. apply Hnone. by right.
Qed.

(** X5: a day on which no festival is kept for any guild leaves the world
    as it is: no lookup, no generation, no message, no write.  This is
    what happens when the event source has no key, fails, answers
    without a list of holidays or with an empty one, since
    [fetchCalendarific] then returns no festival. *)
Theorem quiet_day
    (env : Env) (now : Now) (guilds : list Guild) (w : World) :
  (forall raw,
     (forall g, In g guilds ->
                List.filter (keep (cfgFor (guildConfigs w) (g_id g))) raw = []) ->
     runDaily env now raw guilds w = (tt, w)) /\
  (forall CAL_KEY answer,
     Js.truthy CAL_KEY = false \/ answer = CalendarificFails \/
     answer = CalendarificJson None \/ answer = CalendarificJson (Some []) ->
     fetchCalendarific CAL_KEY answer = [] /\
     runDaily env now (fetchCalendarific CAL_KEY answer) guilds w = (tt, w)).
Proof.
  split; [intros raw; apply runDaily_nothing_kept |].
  intros CAL_KEY answer Hfail.
  assert (Hempty : fetchCalendarific CAL_KEY answer = []).
  { unfold fetchCalendarific. destruct (Js.truthy CAL_KEY); simpl.
    - by destruct Hfail as [? | [-> | [-> | ->]]].
    - done. }
  split; [done |]. rewrite Hempty. by apply runDaily_nothing_kept.
Qed.

(** The provider is down: the run over two guilds does nothing.  A day
    with a festival no guild has enabled does nothing either. *)
Lemma quiet_day_witness :
  runDaily env_down today (fetchCalendarific "key" CalendarificFails)
           [guild1; guild2] world0 = (tt, world0) /\
  (let republic := {| name := "Republic Day"; description := "";
                      type := ["National holiday"];
                      primary_type := "National holiday" |} in
   runDaily env_down today [republic] [guild1; guild2] world0 = (tt, world0)).
Proof.
  destruct (quiet_day env_down today [guild1; guild2] world0) as [Hkept Hsource].
  split.
  - apply Hsource. right; left. reflexivity.
  - apply Hkept. intros g _. reflexivity.
Defined.

(** The adapter keeps the holidays of the answer, one record each, in
    order and under their names, and fills in what is missing. *)
Lemma fetchCalendarific_names (CAL_KEY : string) (holidays : list Holiday) :
  Js.truthy CAL_KEY = true ->
  List.map name (fetchCalendarific CAL_KEY (CalendarificJson (Some holidays)))
  = List.map h_name holidays.
Proof.
  intros Hkey. unfold fetchCalendarific. rewrite Hkey. simpl.
  rewrite List.map_map. reflexivity.
Qed.

(** ** A guild without a channel *)

Lemma findChannel_effect (env : Env) (g : Guild) (channelId : option string)
    (w : World) :
  let res := findChannel env g channelId w in
  guildConfigs res.2 = guildConfigs w /\
  wishCache res.2 = wishCache w /\
  (trace res.2 = trace w \/
   exists id, channelId = Some id /\
              trace res.2 = trace w ++ [FetchChannel (g_id g) id]).
Proof.
  unfold findChannel, resolveChannel, bind, get_trace, emit, ret.
  destruct channelId as [id|]; simpl; [| by split_and!; [| | left]].
  destruct (Js.truthy id); simpl; [| by split_and!; [| | left]].
  destruct (channels_fetch env (trace w) (g_id g) id) as [ch|]; simpl.
  - destruct (negb (ChannelType_eqb (ch_type ch) GuildText)); simpl;
      (split_and!; [done | done | right; by exists id]).
  - split_and!; [done | done | right; by exists id].
Qed.

(** X6: when festivals are kept for a guild but no channel is found
    (none configured or the lookup gives none, and no cached text channel
    is named announcements or general), the guild is passed over: the
    settings store and the cache are as before, there is no generation
    and no message, and the only outside call, if any, is the lookup of
    the configured channel. *)
Theorem no_channel_no_generation
    (env : Env) (now : Now) (raw : list Festival) (g : Guild) (w : World) :
  let cfg := cfgFor (guildConfigs w) (g_id g) in
  (findChannel env g (channelId cfg) w).1 = None ->
  let w' := (runGuild env now raw g w).2 in
  guildConfigs w' = guildConfigs w /\
  wishCache w' = wishCache w /\
  (new_events w w' = [] \/
   exists id, channelId cfg = Some id /\
              new_events w w' = [FetchChannel (g_id g) id]).
Proof.
  intros cfg Hnone w'. unfold w'. rewrite runGuild_run. cbv zeta. fold cfg.
  destruct (List.filter (keep cfg) raw) as [|f festivals].
  { split_and!; [done | done | left]. unfold new_events. apply drop_all. }
  rewrite Hnone.
  destruct (findChannel_effect env g (channelId cfg) w) as (Hg & Hc & Htr).
  split_and!; [done | done |].
  destruct Htr as [Htr | (id & Hid & Htr)].
  - left. unfold new_events. cbn [snd]. rewrite Htr. apply drop_all.
  - right. exists id. split; [done |]. by apply new_events_app.
Qed.

Definition guild_voice_only : Guild :=
  {| g_id := "g3"; g_name := "Voice";
     g_channels := [ {| ch_id := "v1"; ch_type := GuildVoice; ch_name := "general" |};
                     {| ch_id := "c9"; ch_type := GuildText; ch_name := "lobby" |} ] |}.

(** Diwali is kept for the guild, but it has no text channel named
    announcements or general: nothing at all happens. *)
Lemma no_channel_no_generation_witness :
  let w' := (runGuild env_down today [diwali] guild_voice_only world0).2 in
  List.filter (keep (cfgFor (guildConfigs world0) "g3")) [diwali] = [diwali] /\
  wishCache w' = wishCache world0 /\
  new_events world0 w' = [].
Proof.
  intros w'. split; [by vm_compute |].
  destruct (no_channel_no_generation env_down today [diwali] guild_voice_only world0)
    as (_ & Hc & Hev); [by vm_compute |].
  split; [exact Hc |].
  destruct Hev as [Hev | (id & Hid & _)]; [exact Hev |].
  exfalso. revert Hid. by vm_compute.
Defined.

(** ** How the messages of a guild are addressed *)

(** The colours of the three categories: amber, emerald, blue. *)
Definition category_colors : list Z := [0xF59E0B; 0x10B981; 0x60A5FA]%Z.

(** The mention a message starts with, by the setting of the guild. *)
Definition mention_prefix (cfg : Cfg) : option string :=
  if String.eqb (mention cfg) "everyone" then Some "@everyone"
  else if String.eqb (mention cfg) "here" then Some "@here"
  else None.

(** A message goes to the channel [chan] of the guild [g], starts with
    the mention of the settings and has the colour of a category. *)
Definition addressed (g : Guild) (cfg : Cfg) (chan : Channel) (e : Event) : Prop :=
  match e with
  | Send guild channel content embed =>
      guild = g_id g /\ channel = ch_id chan /\
      content = mention_prefix cfg /\
      In (e_color embed) category_colors
  | _ => True
  end.

Lemma classifyFaith_values (name : string) :
  classifyFaith name <> "" ->
  classifyFaith name = "hindu" \/ classifyFaith name = "muslim" \/
  classifyFaith name = "christian".
Proof.
  destruct (classifyFaith_cases name) as
    [[_ ->] | [(_ & _ & ->) | [(_ & _ & _ & ->) | (_ & _ & _ & ->)]]]; tauto.
Qed.

Lemma quiet_addressed (g : Guild) (cfg : Cfg) (chan : Channel) (e : Event) :
  delivers_to None e -> addressed g cfg chan e.
Proof. by destruct e. Qed.

Lemma postFestival_addressed (env : Env) (now : Now) (g : Guild) (cfg : Cfg)
    (chan : Channel) (fest : Festival) :
  classifyFaith (name fest) <> "" ->
  keeps (appends (addressed g cfg chan))
        (postFestival env now g chan (mentionOf cfg) fest).
Proof.
  intros Hfaith w. unfold postFestival, bind.
  pose proof (makeAIWish_appends env (dateISO now) (name fest)
                (classifyFaith (name fest)) None w) as Ha1.
  destruct (makeAIWish env _ _ _ w) as [wishText w1]. cbn [snd] in Ha1.
  pose proof (getFestivalImage_appends env (dateISO now) (name fest)
                (classifyFaith (name fest)) None w1) as Ha2.
  destruct (getFestivalImage env _ _ _ w1) as [imageUrl w2]. cbn [snd] in Ha2.
  etransitivity; [eapply appends_mono; [apply quiet_addressed | exact Ha1] |].
  etransitivity; [eapply appends_mono; [apply quiet_addressed | exact Ha2] |].
  unfold buildEmbed. destruct (embed_accepted env _); [| reflexivity].
  eexists [_]. split; [done |]. constructor; [| done].
  split_and!; [done | done | |].
  - unfold mentionOf, mention_prefix.
    by repeat destruct (String.eqb (mention cfg) _).
  - apply classifyFaith_values in Hfaith as [-> | [-> | ->]]; simpl; tauto.
Qed.

(** X7: every message the daily run sends for a guild goes to that guild
    and to the channel found for it, starts with "@everyone" or "@here"
    when the guild's mention setting is everyone or here and with
    nothing otherwise, and has the colour of one of the three
    categories, never the default one. *)
Theorem messages_addressed
    (env : Env) (now : Now) (raw : list Festival) (g : Guild) (w : World)
    (chan : Channel) :
  let cfg := cfgFor (guildConfigs w) (g_id g) in
  (findChannel env g (channelId cfg) w).1 = Some chan ->
  Forall (addressed g cfg chan) (new_events w (runGuild env now raw g w).2).
Proof.
  intros cfg Hfound.
  assert (Happ : appends (addressed g cfg chan) w (runGuild env now raw g w).2).
  { rewrite runGuild_run. cbv zeta. fold cfg.
    destruct (List.filter (keep cfg) raw) as [|f festivals] eqn:Hkept; [reflexivity |].
    pose proof (findChannel_appends env g (channelId cfg) None w) as Ha.
    rewrite Hfound.
    destruct (findChannel env g (channelId cfg) w) as [found wf]. cbn [snd] in *.
    etransitivity; [eapply appends_mono; [apply quiet_addressed | exact Ha] |].
    assert (Hposted : keeps (appends (addressed g cfg chan))
              (forEach (f :: festivals) (postFestival env now g chan (mentionOf cfg)))).
    { refine (keeps_forEach _ _ _ _). intros fest Hin.
      apply postFestival_addressed. rewrite <- Hkept in Hin.
      apply filter_In in Hin as [_ Hkeep]. apply keep_spec in Hkeep. tauto. }
    specialize (Hposted wf).
    destruct (forEach (f :: festivals) _ wf) as [[|] w2]; cbn [fst snd] in *;
      [| exact Hposted].
    etransitivity; [exact Hposted |].
    eexists [_]. split; [done | by constructor]. }
  destruct Happ as (evs & Htr & Hevs). by rewrite (new_events_app _ _ _ Htr).
Qed.

(** The guild of the first witness, with the default settings: its one
    message goes to channel c1 with "@everyone" and in amber. *)
Lemma messages_addressed_witness :
  let evs := new_events world0 (runGuild env_down today [diwali] guild1 world0).2 in
  Forall (addressed guild1 defaultsFor
            {| ch_id := "c1"; ch_type := GuildText; ch_name := "General" |}) evs /\
  length (sent_embeds evs) = 1%nat.
Proof.
  intros evs. split; [| by vm_compute].
  pose proof (messages_addressed env_down today [diwali] guild1 world0
                {| ch_id := "c1"; ch_type := GuildText; ch_name := "General" |}) as H.
  cbv zeta in H. rewrite cfgFor_empty in H. apply H. by vm_compute.
Defined.

(** ** Accepted commands *)

Definition with_channelId (c : Cfg) (v : option string) : Cfg :=
  {| channelId := v; lang := lang c; religions := religions c;
     mention := mention c; majorOnly := majorOnly c |}.

Definition with_religions (c : Cfg) (v : list string) : Cfg :=
  {| channelId := channelId c; lang := lang c; religions := v;
     mention := mention c; majorOnly := majorOnly c |}.

Definition with_mention (c : Cfg) (v : string) : Cfg :=
  {| channelId := channelId c; lang := lang c; religions := religions c;
     mention := v; majorOnly := majorOnly c |}.

Definition with_majorOnly (c : Cfg) (v : bool) : Cfg :=
  {| channelId := channelId c; lang := lang c; religions := religions c;
     mention := mention c; majorOnly := v |}.

(** The settings a command asks for, when it passes validation. *)
Definition requested (c : Command) (before : Cfg) : option Cfg :=
  match c with
  | setwisheschannel channel =>
      if existsb (ChannelType_eqb (ch_type channel))
                 [GuildText; PublicThread; PrivateThread]
      then Some (with_channelId before (Some (ch_id channel))) else None
  | setreligions list_opt =>
      match parse_religions list_opt with
      | [] => None
      | parsed => Some (with_religions before (set_spread [] parsed))
      end
  | setmention mention_opt =>
      if Js.arr_includes ["everyone"; "here"; "none"] (Js.toLowerCase mention_opt)
      then Some (with_mention before (Js.toLowerCase mention_opt)) else None
  | setmajor major_only => Some (with_majorOnly before major_only)
  | otherCommand _ => None
  end.

(** The two events of an accepted command. *)
Definition saved_and_replied (w' : World) (evs : list Event) : Prop :=
  exists reply, evs = [WriteConfigs (guildConfigs w'); Reply reply].

Lemma runCommand_accepted (env : Env) (gid : string) (c : Command) (w : World)
    (after : Cfg) :
  let before := cfgFor (guildConfigs w) gid in
  let w0 := {| guildConfigs := <[gid := store_cfg before]> (guildConfigs w);
               wishCache := wishCache w; trace := trace w |} in
  requested c before = Some after ->
  let w' := (runCommand env gid c w0).2 in
  cfgFor (guildConfigs w') gid = after /\
  wishCache w' = wishCache w /\
  exists reply, trace w' = trace w ++ [WriteConfigs (guildConfigs w'); Reply reply].
Proof.
  cbv zeta. destruct c as [channel|list_opt|mention_opt|major_only|other];
    unfold requested, runCommand.
  - destruct (existsb _ _); simpl; [| done]. intros [= <-].
    rewrite cfgFor_alter_eq. split_and!; [done | done |].
    eexists. by rewrite <- app_assoc.
  - destruct (parse_religions list_opt) as [|x rest]; simpl; [done |]. intros [= <-].
    rewrite cfgFor_alter_eq. split_and!; [done | done |].
    eexists. by rewrite <- app_assoc.
  - destruct (Js.arr_includes _ _); simpl; [| done]. intros [= <-].
    rewrite cfgFor_alter_eq. split_and!; [done | done |].
    eexists. by rewrite <- app_assoc.
  - simpl. intros [= <-].
    rewrite cfgFor_alter_eq. split_and!; [done | done |].
    eexists. by rewrite <- app_assoc.
  - done.
Qed.

(** X8: a command sent from a guild that passes validation changes, in
    the settings of that guild, the one field it is about (the channel
    id, the de-duplicated known categories of the list, the lower-cased
    mention, the major-only flag) and nothing else; the settings of
    every other guild and the cache are as before; the store is saved as
    it then is in memory, and one reply follows. *)
Theorem accepted_command_effect
    (env : Env) (i : Interaction) (gid : string) (w : World) (after : Cfg) :
  isChatInputCommand i = true ->
  guildId i = Some gid -> Js.truthy gid = true ->
  requested (command i) (cfgFor (guildConfigs w) gid) = Some after ->
  let w' := (onInteraction env i w).2 in
  cfgFor (guildConfigs w') gid = after /\
  (forall g, g <> gid -> cfgFor (guildConfigs w') g = cfgFor (guildConfigs w) g) /\
  wishCache w' = wishCache w /\
  saved_and_replied w' (new_events w w').
Proof.
  intros Hchat Hgid Ht Hreq. cbv zeta.
  rewrite (onInteraction_in_guild env i gid w Hchat Hgid Ht).
  destruct (runCommand_accepted env gid (command i) w after Hreq)
    as (Hafter & Hcache & reply & Htr).
  split_and!; [done | | done |].
  - intros g Hne.
    rewrite (runCommand_other_guild env gid g (command i) _ (not_eq_sym Hne)).
    apply cfgFor_write_back.
  - exists reply. by apply new_events_app.
Qed.

(** A guild turns the major-only filter off, then sets its mention. *)
Lemma accepted_command_effect_witness :
  let i1 := {| isChatInputCommand := true; guildId := Some "g1";
               command := setmajor false |} in
  let i2 := {| isChatInputCommand := true; guildId := Some "g1";
               command := setmention "HERE" |} in
  let w1 := (onInteraction env_down i1 world0).2 in
  let w2 := (onInteraction env_down i2 w1).2 in
  cfgFor (guildConfigs w1) "g1" = with_majorOnly defaultsFor false /\
  cfgFor (guildConfigs w2) "g1"
    = with_mention (with_majorOnly defaultsFor false) "here".
Proof.
  intros i1 i2 w1 w2. subst w2 w1.
  destruct (accepted_command_effect env_down i1 "g1" world0
              (with_majorOnly defaultsFor false) eq_refl eq_refl eq_refl)
    as (H1 & _); [by vm_compute |].
  split; [exact H1 |].
  destruct (accepted_command_effect env_down i2 "g1"
              (onInteraction env_down i1 world0).2
              (with_mention (with_majorOnly defaultsFor false) "here")
              eq_refl eq_refl eq_refl)
    as (H2 & _); [| exact H2].
  rewrite H1. reflexivity.
Defined.

(** ** The list of the set-categories command *)

Lemma set_spread_spec (seen parsed : list string) :
  List.NoDup (set_spread seen parsed) /\
  forall x, In x (set_spread seen parsed) <-> In x parsed /\ ~ In x seen.
Proof.
  revert seen. induction parsed as [|y rest IH]; intros seen; simpl.
  - split; [constructor | tauto].
  - destruct (Js.arr_includes seen y) eqn:Hy.
    + apply arr_includes_spec in Hy. destruct (IH seen) as [Hnd Hin].
      split; [done |]. intros x. rewrite Hin. split; [tauto |].
      intros [[-> | Hx] Hns]; [done | tauto].
    + assert (Hny : ~ In y seen) by (rewrite <- arr_includes_spec; congruence).
      destruct (IH (y :: seen)) as [Hnd Hin]. split.
      * constructor; [| done]. rewrite Hin. simpl. tauto.
      * intros x. simpl. rewrite Hin. simpl. split.
        -- intros [<- | [Hx Hns]]; [tauto |]. tauto.
        -- intros [[<- | Hx] Hns]; [tauto |].
           destruct (string_dec y x) as [-> | Hne]; [tauto | right; tauto].
Qed.

(** X9: what an accepted set-categories command stores is a list without
    repetition, of at least one and at most three categories, holding
    exactly the known categories that occur among the pieces of the
    argument. *)
Theorem stored_religions_shape
    (env : Env) (i : Interaction) (gid list_opt : string) (w : World) :
  isChatInputCommand i = true ->
  guildId i = Some gid -> Js.truthy gid = true ->
  command i = setreligions list_opt ->
  parse_religions list_opt <> [] ->
  let stored := religions (cfgFor (guildConfigs (onInteraction env i w).2) gid) in
  List.NoDup stored /\
  (1 <= length stored <= 3)%nat /\
  forall r, In r stored <-> In r allowed /\ In r (pieces list_opt).
Proof.
  intros Hchat Hgid Ht Hcmd Hparsed. cbv zeta.
  rewrite (onInteraction_in_guild env i gid w Hchat Hgid Ht), Hcmd.
  rewrite (setreligions_stored env gid list_opt w Hparsed).
  destruct (set_spread_spec [] (parse_religions list_opt)) as [Hnd Hin].
  assert (Hmem : forall r, In r (set_spread [] (parse_religions list_opt)) <->
                           In r allowed /\ In r (pieces list_opt)).
  { intros r. rewrite Hin. unfold parse_religions. fold (pieces list_opt).
    rewrite filter_In, arr_includes_spec. simpl. tauto. }
  split_and!; [done | | | done].
  - destruct (parse_religions list_opt) as [|x rest] eqn:Hp; [done |].
    assert (Hx : In x (set_spread [] (x :: rest))) by (apply Hin; simpl; tauto).
    destruct (set_spread [] (x :: rest)); [done | simpl; lia].
  - change 3%nat with (length allowed). apply List.NoDup_incl_length; [done |].
    intros r Hr. by apply Hmem in Hr as [? _].
Qed.

Lemma stored_religions_shape_witness :
  let i := {| isChatInputCommand := true; guildId := Some "g1";
              command := setreligions "muslim, Hindu muslim;jain" |} in
  let stored := religions (cfgFor (guildConfigs (onInteraction env_down i world0).2) "g1") in
  stored = ["muslim"; "hindu"] /\ List.NoDup stored.
Proof.
  intros i stored. subst stored. split; [vm_compute; reflexivity |].
  assert (Hparsed : parse_religions "muslim, Hindu muslim;jain" <> [])
    by (vm_compute; discriminate).
  destruct (stored_religions_shape env_down i "g1" "muslim, Hindu muslim;jain" world0
              eq_refl eq_refl eq_refl eq_refl Hparsed) as (Hnd & _).
  exact Hnd.
Defined.

(** ** The pieces of the list *)

(** [s] starts with none of the separators. *)
Definition no_sep_ahead (s : string) : Prop :=
  forall ch, In ch SEPARATORS -> Js.startsWith s ch = false.

Lemma SEPARATORS_nonempty (ch : string) : In ch SEPARATORS -> ch <> "".
Proof.
  intros Hin ->. revert Hin. unfold SEPARATORS, Js.WHITE_SPACE. simpl.
  intros H. repeat (destruct H as [H | H]; [discriminate |]). done.
Qed.

Lemma sep_length_zero (s : string) : sep_length s = 0%nat <-> no_sep_ahead s.
Proof.
  unfold sep_length, Js.match_length, no_sep_ahead.
  destruct (List.find _ SEPARATORS) as [ch|] eqn:Hfind.
  - apply find_some in Hfind as [Hin Hch]. split.
    + intros Hlen. destruct ch; [| discriminate]. by apply SEPARATORS_nonempty in Hin.
    + intros Hnone. rewrite (Hnone ch Hin) in Hch. discriminate.
  - split; [| done]. intros _ ch Hin. apply (find_none _ _ Hfind ch Hin).
Qed.

(** A separator is a comma or a white space character. *)
Lemma sep_length_space (s : string) :
  sep_length s = if Js.startsWith s "," then 1%nat else Js.space_length s.
Proof.
  unfold sep_length, Js.space_length, Js.match_length, SEPARATORS.
  cbn [List.find]. by destruct (Js.startsWith s ",").
Qed.

Lemma startsWith_app (t r ch : string) :
  Js.startsWith t ch = true -> Js.startsWith (t +:+ r) ch = true.
Proof.
  revert t. induction ch as [|k ch IH]; intros t; [done |].
  destruct t as [|c t]; [done |]. rewrite str_app_cons. cbn [Js.startsWith].
  destruct (Ascii.eqb k c); [apply IH | done].
Qed.

Lemma no_sep_ahead_app (t r : string) : no_sep_ahead (t +:+ r) -> no_sep_ahead t.
Proof.
  intros Hnone ch Hin. specialize (Hnone ch Hin).
  destruct (Js.startsWith t ch) eqn:Ht; [| done].
  by rewrite (startsWith_app t r ch Ht) in Hnone.
Qed.

(** No separator starts anywhere in [cur], read with [raw] after it. *)
Fixpoint sep_free_before (cur raw : string) : Prop :=
  match cur with
  | EmptyString => True
  | String c cur' => no_sep_ahead (cur +:+ raw) /\ sep_free_before cur' raw
  end.

(** No character of [s] is white space or a comma. *)
Definition sep_free (s : string) : Prop := sep_free_before s "".

Lemma string_app_empty (s : string) : s +:+ "" = s.
Proof. induction s as [|c s IH]; [done |]. by rewrite str_app_cons, IH. Qed.

Lemma sep_free_before_weaken (cur raw : string) :
  sep_free_before cur raw -> sep_free cur.
Proof.
  unfold sep_free. induction cur as [|c cur IH]; [done |].
  intros [Hc Hcur]. split; [| by apply IH].
  apply no_sep_ahead_app in Hc. by rewrite string_app_empty.
Qed.

Lemma sep_free_cons (c : ascii) (s : string) :
  sep_free (String c s) <-> no_sep_ahead (String c s) /\ sep_free s.
Proof. unfold sep_free. cbn [sep_free_before]. by rewrite string_app_empty. Qed.

Lemma sep_free_before_snoc (cur raw : string) (c : ascii) :
  sep_free_before cur (String c raw) -> no_sep_ahead (String c raw) ->
  sep_free_before (cur +:+ String c "") raw.
Proof.
  intros Hcur Hc. induction cur as [|x cur IH]; [done |].
  destruct Hcur as [Hx Hcur]. rewrite str_app_cons. split; [| by apply IH].
  by rewrite <- str_app_cons, string_app_assoc.
Qed.

(** The pieces are free of separators: a byte joins the piece being read
    only where no separator starts, and the bytes of a separator are
    passed with no piece open. *)
Lemma split_go_sep_free (raw cur : string) (in_run : bool) (skip : nat) :
  sep_free_before cur raw -> (skip <> 0%nat -> cur = "") ->
  Forall sep_free (split_go raw cur in_run skip).
Proof.
  revert cur in_run skip.
  induction raw as [|c raw IH]; intros cur in_run skip Hcur Hskip; cbn [split_go].
  - constructor; [| done]. by apply (sep_free_before_weaken cur "").
  - destruct skip as [|k].
    + destruct (sep_length (String c raw)) as [|k] eqn:Hsep.
      * apply IH; [| done]. apply sep_free_before_snoc; [done |].
        by apply sep_length_zero.
      * apply sep_free_before_weaken in Hcur.
        destruct in_run; [by apply IH | constructor; [done | by apply IH]].
    + rewrite (Hskip ltac:(done)). by apply IH.
Qed.

Lemma split_go_one_piece (raw cur : string) :
  sep_free raw -> split_go raw cur false 0 = [cur +:+ raw].
Proof.
  revert cur. induction raw as [|c raw IH]; intros cur Hraw; cbn [split_go].
  - by rewrite string_app_empty.
  - apply sep_free_cons in Hraw as [Hc Hraw]. apply sep_length_zero in Hc.
    rewrite Hc, (IH _ Hraw). by rewrite string_app_assoc.
Qed.

Lemma sep_free_space (c : ascii) (s : string) :
  sep_free (String c s) -> Js.space_length (String c s) = 0%nat.
Proof.
  intros Hs. apply sep_free_cons in Hs as [Hc _]. apply sep_length_zero in Hc.
  rewrite sep_length_space in Hc. by destruct (Js.startsWith _ ",").
Qed.

Lemma trimEnd_sep_free (s : string) : sep_free s -> Js.trimEnd s = s.
Proof.
  induction s as [|c s IH]; [done |]. intros Hs.
  pose proof (sep_free_space c s Hs) as Hsp.
  apply sep_free_cons in Hs as [_ Hs].
  cbn [Js.trimEnd Js.all_space_from]. by rewrite Hsp, (IH Hs).
Qed.

Lemma trim_sep_free (s : string) : sep_free s -> Js.trim s = s.
Proof.
  intros Hs. unfold Js.trim.
  assert (Js.trimStart s = s) as ->; [| by apply trimEnd_sep_free].
  destruct s as [|c s]; [done |].
  unfold Js.trimStart. cbn [Js.trimStart_from]. by rewrite (sep_free_space c s Hs).
Qed.

(** X10: the pieces the set-categories command cuts its lower-cased
    argument into hold neither white space (of any kind [\s] knows) nor
    a comma, so trimming them changes nothing; an argument without
    separators is one piece; and the command is accepted exactly when
    one of the pieces is a known category. *)
Theorem pieces_of_the_list (list_opt : string) :
  let raw := Js.toLowerCase list_opt in
  Forall sep_free (split_list raw) /\
  pieces list_opt = split_list raw /\
  (sep_free raw <-> split_list raw = [raw]) /\
  (parse_religions list_opt <> [] <->
   exists r, In r allowed /\ In r (split_list raw)).
Proof.
  intros raw.
  assert (Hfree : Forall sep_free (split_list raw)).
  { by apply split_go_sep_free. }
  assert (Hpieces : pieces list_opt = split_list raw).
  { unfold pieces. fold raw. induction Hfree as [|s l Hs _ IH]; [done |].
    cbn [List.map]. by rewrite (trim_sep_free s Hs), IH. }
  split_and!; [exact Hfree | exact Hpieces | |].
  - split.
    + intros Hraw. unfold split_list. by rewrite (split_go_one_piece raw "" Hraw).
    + intros Heq. rewrite Heq in Hfree. by apply Forall_inv in Hfree.
  - unfold parse_religions. fold raw.
    unfold pieces in Hpieces. fold raw in Hpieces. rewrite Hpieces. split.
    + intros Hne. destruct (List.filter _ (split_list raw)) as [|r rest] eqn:Hf; [done |].
      assert (Hr : In r (List.filter (fun s => Js.arr_includes allowed s) (split_list raw)))
        by (rewrite Hf; by left).
      apply filter_In in Hr as [Hin Hal]. apply arr_includes_spec in Hal. by exists r.
    + intros (r & Hal & Hin) Hempty.
      assert (Hr : In r (List.filter (fun s => Js.arr_includes allowed s) (split_list raw))).
      { apply filter_In. split; [done | by apply arr_includes_spec]. }
      by rewrite Hempty in Hr.
Qed.

(** ** The allow-list against the keywords *)

Definition ALL_KEYS : list string := HINDU_KEYS ++ MUSLIM_KEYS ++ CHRISTIAN_KEYS.

Lemma occurs_in_trans (a b c : string) :
  occurs_in a b -> occurs_in b c -> occurs_in a c.
Proof.
  intros (l1 & r1 & ->) (l2 & r2 & ->). exists (l2 +:+ l1), (r1 +:+ r2).
  by rewrite !string_app_assoc.
Qed.

Lemma classified_iff (name : string) :
  classifyFaith name <> "" <-> matches ALL_KEYS (Js.toLowerCase name).
Proof.
  unfold matches, ALL_KEYS.
  assert (Hany : forall n,
    (exists key, In key (HINDU_KEYS ++ MUSLIM_KEYS ++ CHRISTIAN_KEYS) /\ occurs_in key n)
    <-> matches HINDU_KEYS n \/ matches MUSLIM_KEYS n \/ matches CHRISTIAN_KEYS n).
  { intros n. unfold matches. split.
    - intros (key & Hin & Hocc). rewrite !in_app_iff in Hin.
      destruct Hin as [H | [H | H]]; [left | right; left | right; right]; by exists key.
    - intros [(key & H & Hocc) | [(key & H & Hocc) | (key & H & Hocc)]];
        exists key; rewrite !in_app_iff; tauto. }
  rewrite Hany.
  destruct (classifyFaith_cases name) as
    [[Hh ->] | [(Hh & Hm & ->) | [(Hh & Hm & Hc & ->) | (Hh & Hm & Hc & ->)]]];
    split; try done; try tauto.
Qed.

(** The entry holds a keyword of one of the three categories. *)
Definition covered (entry : string) : bool :=
  existsb (fun key => Js.includes entry key) ALL_KEYS.

Lemma allow_list_covered (entry : string) :
  In entry ALLOW -> entry <> "maha shivaratri" -> covered entry = true.
Proof.
  intros Hin Hne.
  assert (Hall : forallb (fun e => String.eqb e "maha shivaratri" || covered e) ALLOW = true)
    by (vm_compute; reflexivity).
  rewrite forallb_forall in Hall. specialize (Hall entry Hin).
  apply orb_true_iff in Hall as [Heq | Hcov]; [| done].
  by apply String.eqb_eq in Heq.
Qed.

(** X11: every name that holds an entry of the allow-list of
    [isMajorFestival], other than "maha shivaratri", is classified by
    [classifyFaith], since each such entry holds a keyword of a
    category.  "maha shivaratri" holds none (the keyword is spelled
    "mahashivratri"): a festival of that name is major and yet kept for
    no guild, whatever its settings. *)
Theorem allow_list_against_keywords :
  (forall name entry,
     In entry ALLOW -> entry <> "maha shivaratri" ->
     occurs_in entry (Js.toLowerCase name) ->
     classifyFaith name <> "") /\
  (forall (cfg : Cfg) (f : Festival),
     In (Js.toLowerCase (name f))
        ["maha shivaratri"; "maha shivaratri/shivaratri"] ->
     isMajorFestival f = true /\ classifyFaith (name f) = "" /\ keep cfg f = false).
Proof.
  split.
  - intros name entry Hin Hne Hocc. apply classified_iff.
    pose proof (allow_list_covered entry Hin Hne) as Hcov.
    unfold covered in Hcov. apply existsb_exists in Hcov as (key & Hkey & Hinc).
    apply includes_spec in Hinc. exists key. split; [done |].
    by apply (occurs_in_trans key entry).
  - intros cfg f Hname.
    assert (Hmajor : isMajorFestival f = true).
    { unfold isMajorFestival.
      destruct Hname as [<- | [<- | []]]; reflexivity. }
    assert (Hfaith : classifyFaith (name f) = "").
    { unfold classifyFaith.
      destruct Hname as [<- | [<- | []]]; reflexivity. }
    split_and!; [done | done |]. unfold keep. by rewrite Hfaith.
Qed.

Lemma allow_list_against_keywords_witness :
  classifyFaith "Ganesh Chaturthi/Vinayaka Chaturthi" <> "" /\
  (let shivaratri := {| name := "Maha Shivaratri/Shivaratri"; description := "";
                        type := ["Hindu"]; primary_type := "Hinduism" |} in
   isMajorFestival shivaratri = true /\ keep defaultsFor shivaratri = false).
Proof.
  destruct allow_list_against_keywords as [Hcov Hgap]. split.
  - apply (Hcov "Ganesh Chaturthi/Vinayaka Chaturthi" "ganesh chaturthi").
    + simpl. tauto.
    + discriminate.
    + by exists "", "/vinayaka chaturthi".
  - intros shivaratri.
    destruct (Hgap defaultsFor shivaratri) as (Hmajor & _ & Hkeep);
      [right; left; reflexivity |].
    split; [exact Hmajor | exact Hkeep].
Defined.

(** ** Wider settings keep more *)

(** X12: an event kept under some settings is kept under any settings
    that enable at least the same categories and ask for major events
    only if the first ones do: enabling a category or turning the
    major-only filter off never drops an event. *)
Theorem wider_settings_keep_more (cfg cfg' : Cfg) (raw : list Festival) :
  (forall r, In r (religions cfg) -> In r (religions cfg')) ->
  (majorOnly cfg' = true -> majorOnly cfg = true) ->
  forall f, In f (List.filter (keep cfg) raw) -> In f (List.filter (keep cfg') raw).
Proof.
  intros Hrel Hmajor f. rewrite !filter_In, !keep_spec.
  intros (Hraw & Hne & Hin & Hm). split_and!; [done | done | by apply Hrel |].
  destruct (majorOnly cfg') eqn:Hm'; [| by left].
  rewrite (Hmajor eq_refl) in Hm. destruct Hm as [? | ?]; [done | by right].
Qed.

(** From hindu only to the three categories, the filter still off:
    Diwali stays. *)
Lemma wider_settings_keep_more_witness :
  In diwali (List.filter (keep (with_majorOnly defaultsFor false)) [eid; diwali]).
Proof.
  apply (wider_settings_keep_more hindu_only (with_majorOnly defaultsFor false)
           [eid; diwali]).
  - simpl. tauto.
  - intros H. discriminate H.
  - simpl. tauto.
Defined.

(** ** The cache file and the cache in memory *)

(** The cache file as the last write of a trace left it, if there is one. *)
Fixpoint last_cache_write (tr : list Event) : option (gmap string string) :=
  match tr with
  | [] => None
  | e :: tr' =>
      match last_cache_write tr' with
      | Some file => Some file
      | None => match e with WriteCache file => Some file | _ => None end
      end
  end.

Lemma last_cache_write_app (tr1 tr2 : list Event) :
  last_cache_write (tr1 ++ tr2) =
  match last_cache_write tr2 with
  | Some file => Some file
  | None => last_cache_write tr1
  end.
Proof.
  induction tr1 as [|e tr1 IH]; simpl.
  - by destruct (last_cache_write tr2).
  - rewrite IH. by destruct (last_cache_write tr2).
Qed.

(** From [w] to [w'] the trace grows and the cache in memory is the file
    last written on the way, or the cache of [w] if none was. *)
Definition mirrors (w w' : World) : Prop :=
  exists evs, trace w' = trace w ++ evs /\
              wishCache w' = default (wishCache w) (last_cache_write evs).

#[local] Instance mirrors_preorder : PreOrder mirrors.
Proof.
  split.
  - intros w. exists []. by rewrite app_nil_r.
  - intros w1 w2 w3 (e12 & H12 & C12) (e23 & H23 & C23).
    exists (e12 ++ e23). split; [by rewrite H23, H12, app_assoc |].
    rewrite last_cache_write_app, C23.
    destruct (last_cache_write e23); [done | exact C12].
Qed.

Definition no_cache_write (e : Event) : Prop :=
  match e with WriteCache _ => False | _ => True end.

Lemma mirrors_emit (e : Event) : no_cache_write e -> keeps mirrors (emit e).
Proof. intros He w. exists [e]. split; [done |]. by destruct e. Qed.

Lemma mirrors_cacheSet (k v : string) : keeps mirrors (cacheSet k v).
Proof. intros w. by eexists [_]. Qed.

Lemma mirrors_setConfig (gid : string) (s : Stored) : keeps mirrors (setConfig gid s).
Proof. intros w. exists []. by rewrite app_nil_r. Qed.

Lemma mirrors_updateConfig (gid : string) (f : Stored -> Stored) :
  keeps mirrors (updateConfig gid f).
Proof. intros w. exists []. by rewrite app_nil_r. Qed.

Lemma mirrors_saveConfigs : keeps mirrors saveConfigs.
Proof. intros w. by eexists [_]. Qed.

Ltac mirrors_tac :=
  repeat first
    [ apply mirrors_emit; exact I
    | apply mirrors_cacheSet
    | apply mirrors_setConfig
    | apply mirrors_updateConfig
    | apply mirrors_saveConfigs
    | keeps_step ].

Lemma makeAIWish_mirrors (env : Env) (dateISO name faith : string) :
  keeps mirrors (makeAIWish env dateISO name faith).
Proof. unfold makeAIWish, generateContent. mirrors_tac. Qed.

Lemma getFestivalImage_mirrors (env : Env) (dateISO name faith : string) :
  keeps mirrors (getFestivalImage env dateISO name faith).
Proof. unfold getFestivalImage, queryForImage, fetchPexelsImage. mirrors_tac. Qed.

Lemma runDaily_mirrors (env : Env) (now : Now) (raw : list Festival)
    (guilds : list Guild) :
  keeps mirrors (runDaily env now raw guilds).
Proof.
  refine (keeps_runDaily _ _ _ _ _ _). intros g.
  unfold runGuild, findChannel, resolveChannel. mirrors_tac.
  refine (keeps_forEach _ _ _ _). intros fest _. unfold postFestival.
  refine (keeps_bind _ _ _ (makeAIWish_mirrors _ _ _ _) _). intros wishText.
  refine (keeps_bind _ _ _ (getFestivalImage_mirrors _ _ _ _) _). intros imageUrl.
  mirrors_tac.
Qed.

Lemma onInteraction_mirrors (env : Env) (i : Interaction) :
  keeps mirrors (onInteraction env i).
Proof. unfold onInteraction, runCommand. mirrors_tac. Qed.

(** X13: whatever the process runs, the cache in memory equals the cache
    file as the last write left it, and is the cache it started with when
    nothing was written: every change of the cache is followed by the
    write of the whole cache, and nothing else writes that file. *)
Theorem cache_file_mirrors_memory (ops : list Op) (w : World) :
  let w' := execs ops w in
  wishCache w' = default (wishCache w) (last_cache_write (new_events w w')).
Proof.
  cbv zeta.
  assert (Hrun : mirrors w (execs ops w)).
  { revert w. induction ops as [|o ops IH]; intros w; [reflexivity |].
    cbn [execs fold_left]. etransitivity; [| apply IH].
    destruct o; cbn [exec].
    - apply makeAIWish_mirrors.
    - apply getFestivalImage_mirrors.
    - apply runDaily_mirrors.
    - apply onInteraction_mirrors. }
  destruct Hrun as (evs & Htr & Hc). by rewrite (new_events_app _ _ _ Htr).
Qed.

(** ** What the daily run and the handler never do *)

Definition no_reply (e : Event) : Prop :=
  match e with Reply _ => False | _ => True end.

(** The record the store holds for [gid] is as before. *)
Definition same_record (gid : string) (w w' : World) : Prop :=
  guildConfigs w' !! gid = guildConfigs w !! gid.

#[local] Instance same_record_preorder (gid : string) : PreOrder (same_record gid).
Proof.
  split.
  - by intros w.
  - intros w1 w2 w3 H12 H23. unfold same_record in *. congruence.
Qed.

Lemma runGuild_same_record (env : Env) (now : Now) (raw : list Festival)
    (g : Guild) (gid : string) :
  g_id g <> gid -> keeps (same_record gid) (runGuild env now raw g).
Proof.
  intros Hne w. unfold same_record. rewrite runGuild_run. cbv zeta.
  set (cfg := cfgFor (guildConfigs w) (g_id g)).
  pose proof (findChannel_same_configs env g (channelId cfg) w) as Hfound.
  destruct (List.filter _ raw) as [|f festivals]; [done |].
  destruct (findChannel env g _ w) as [[chan|] w1]; cbn [fst snd] in *;
    [| by rewrite Hfound].
  pose proof (forEach_postFestival_same_configs env now g chan (mentionOf cfg)
                (f :: festivals) w1) as Hposted.
  destruct (forEach (f :: festivals) _ w1) as [[|] w2]; cbn [fst snd guildConfigs] in *.
  - by rewrite lookup_insert_ne, Hposted, Hfound.
  - by rewrite Hposted, Hfound.
Qed.

Lemma runGuilds_same_record (env : Env) (now : Now) (raw : list Festival)
    (guilds : list Guild) (gid : string) :
  (forall g, In g guilds -> g_id g <> gid) ->
  keeps (same_record gid) (runGuilds env now raw guilds).
Proof.
  intros Hne. refine (keeps_forEach _ _ _ _). intros g Hg.
  apply runGuild_same_record. by apply Hne.
Qed.

(** X14: a daily run stores a settings record for no guild outside the
    list it is run over: every other record of the store is left as it
    is.  It never overwrites a non-empty entry of the cache, and it
    never replies to an interaction. *)
Theorem daily_run_confined
    (env : Env) (now : Now) (raw : list Festival) (guilds : list Guild) (w : World) :
  let w' := (runDaily env now raw guilds w).2 in
  (forall gid, (forall g, In g guilds -> g_id g <> gid) ->
               guildConfigs w' !! gid = guildConfigs w !! gid) /\
  cache_stable w w' /\
  Forall no_reply (new_events w w').
Proof.
  cbv zeta. split_and!.
  - intros gid Hne. rewrite runDaily_world. cbn [snd].
    by apply (runGuilds_same_record env now raw guilds gid).
  - apply runDaily_cache_stable.
  - assert (Hrun : keeps (appends no_reply) (runDaily env now raw guilds)).
    { refine (keeps_runDaily _ _ _ _ _ _). intros g w0.
      eapply appends_mono; [| apply runGuild_appends]. intros e. by destruct e. }
    destruct (Hrun w) as (evs & Htr & Hevs). by rewrite (new_events_app _ _ _ Htr).
Qed.

(** X15: the interaction handler leaves the cache alone and calls no
    provider and sends no message: what it adds to the trace is nothing,
    or one reply, or the save of the store as it then is followed by one
    reply.  A slash command of the bot sent from a guild is always
    answered. *)
Theorem interaction_effects (env : Env) (i : Interaction) (w : World) :
  let w' := (onInteraction env i w).2 in
  wishCache w' = wishCache w /\
  (new_events w w' = [] \/
   (exists reply, new_events w w' = [Reply reply]) \/
   (exists reply, new_events w w' = [WriteConfigs (guildConfigs w'); Reply reply])) /\
  (forall gid,
     isChatInputCommand i = true -> guildId i = Some gid -> Js.truthy gid = true ->
     (forall other, command i <> otherCommand other) ->
     exists reply, last (new_events w w') = Some (Reply reply)).
Proof.
  cbv zeta.
  assert (Hcmd : forall gid w0,
    let w1 := (runCommand env gid (command i) w0).2 in
    wishCache w1 = wishCache w0 /\
    ((exists other, command i = otherCommand other) /\ trace w1 = trace w0 \/
     (exists reply, trace w1 = trace w0 ++ [Reply reply]) \/
     (exists reply, trace w1 = trace w0 ++ [WriteConfigs (guildConfigs w1); Reply reply]))).
  { intros gid w0. cbv zeta.
    destruct (command i) as [channel|list_opt|mention_opt|major_only|other];
      unfold runCommand.
    - destruct (negb _); simpl; (split; [done |]).
      + right; left. by eexists.
      + right; right. eexists. by rewrite <- app_assoc.
    - destruct (parse_religions list_opt); simpl; (split; [done |]).
      + right; left. by eexists.
      + right; right. eexists. by rewrite <- app_assoc.
    - destruct (negb _); simpl; (split; [done |]).
      + right; left. by eexists.
      + right; right. eexists. by rewrite <- app_assoc.
    - simpl. split; [done |]. right; right. eexists. by rewrite <- app_assoc.
    - simpl. split; [done |]. left. split; [by exists other | done]. }
  destruct (isChatInputCommand i) eqn:Hchat.
  2: { rewrite (onInteraction_ignored env i w (or_introl Hchat)). simpl.
       split_and!; [done | left; apply drop_all | done]. }
  destruct (guildId i) as [gid|] eqn:Hgid.
  2: { rewrite (onInteraction_ignored env i w); [| right; by rewrite Hgid]. simpl.
       split_and!; [done | left; apply drop_all | done]. }
  destruct (Js.truthy gid) eqn:Ht.
  2: { rewrite (onInteraction_ignored env i w); [| right; by rewrite Hgid]. simpl.
       split_and!; [done | left; apply drop_all | intros gid' _ [= <-]; congruence]. }
  rewrite (onInteraction_in_guild env i gid w Hchat Hgid Ht).
  match goal with |- context [runCommand env gid (command i) ?w0] =>
    destruct (Hcmd gid w0) as [Hc Htr] end.
  simpl in Hc, Htr. split_and!; [done | |].
  - destruct Htr as [[_ Htr] | [(r & Htr) | (r & Htr)]].
    + left. unfold new_events. rewrite Htr. apply drop_all.
    + right; left. exists r. by apply new_events_app.
    + right; right. exists r. by apply new_events_app.
  - intros gid' _ _ _ Hknown.
    destruct Htr as [[(other & Hother) _] | [(r & Htr) | (r & Htr)]].
    + by destruct (Hknown other).
    + exists r. by rewrite (new_events_app _ _ _ Htr).
    + exists r. by rewrite (new_events_app _ _ _ Htr).
Qed.

(** ** The channel a guild is posted to *)

(** X16: the channel a guild is posted to is always a guild text channel:
    either the configured one, as the lookup returned it, or, when that
    lookup gives no text channel, the first channel of the guild's cache
    that is a text channel named announcements or general; without a
    configured id no lookup is made. *)
Theorem channel_found
    (env : Env) (g : Guild) (channelId : option string) (w : World) (c : Channel) :
  (findChannel env g channelId w).1 = Some c ->
  ch_type c = GuildText /\
  ((exists id, channelId = Some id /\ Js.truthy id = true /\
               channels_fetch env (trace w) (g_id g) id = Some c) \/
   (exists before after,
      g_channels g = before ++ c :: after /\
      fallback_candidate c /\
      Forall (fun c' => ~ fallback_candidate c') before)) /\
  (truthy_opt channelId = false -> (findChannel env g channelId w).2 = w).
Proof.
  intros Hfound.
  assert (Hres : (resolveChannel env g channelId w).1 = Some c \/
                 (resolveChannel env g channelId w).1 = None /\
                 fallbackChannel g = Some c).
  { revert Hfound. unfold findChannel, bind.
    destruct (resolveChannel env g channelId w) as [[r|] w1]; simpl.
    - intros [= <-]. by left.
    - intros Hfb. by right. }
  split_and!.
  - destruct Hres as [Hres | [_ Hfb]].
    + by apply (resolveChannel_guild_text env g channelId w).
    + apply fallbackChannel_spec in Hfb. tauto.
  - destruct Hres as [Hres | [_ Hfb]].
    + left. revert Hres. unfold resolveChannel, bind, get_trace, emit, ret.
      destruct channelId as [id|]; [| done].
      destruct (Js.truthy id) eqn:Ht; simpl; [| done].
      destruct (channels_fetch env (trace w) (g_id g) id) as [ch|] eqn:Hfetch; [| done].
      destruct (negb (ChannelType_eqb (ch_type ch) GuildText)); simpl; [done |].
      intros [= <-]. by exists id.
    + right. unfold fallbackChannel in Hfb.
      apply find_first in Hfb as (before & after & Hl & Hc & Hb).
      exists before, after. split_and!; [done | |].
      * apply andb_true_iff in Hc as [Hty Hn]. split;
          [by apply ChannelType_eqb_spec | by apply arr_includes_spec].
      * eapply Forall_impl; [exact Hb |]. intros c' Hc' [Hty Hn].
        apply ChannelType_eqb_spec in Hty. apply arr_includes_spec in Hn.
        cbv beta in Hc'. by rewrite Hty, Hn in Hc'.
  - intros Hnone. unfold findChannel, resolveChannel, bind, ret.
    destruct channelId as [id|]; [| done]. simpl in Hnone. by rewrite Hnone.
Qed.

(** The guild of the first witness has a voice channel named General
    before its text channel of that name: the text channel is taken. *)
Lemma channel_found_witness :
  let c1 := {| ch_id := "c1"; ch_type := GuildText; ch_name := "General" |} in
  (findChannel env_down guild1 None world0).1 = Some c1 /\
  ch_type c1 = GuildText /\
  (findChannel env_down guild1 None world0).2 = world0.
Proof.
  intros c1.
  assert (Hfound : (findChannel env_down guild1 None world0).1 = Some c1)
    by reflexivity.
  destruct (channel_found env_down guild1 None world0 c1 Hfound) as (Hty & _ & Hw).
  split_and!; [exact Hfound | exact Hty | by apply Hw].
Defined.

(** ** The cost of a daily run in provider calls *)

(** The names among [names] whose wish of the day is not in the cache. *)
Definition uncached (dateISO : string) (names : list string) (w : World) : nat :=
  length (List.filter
            (fun n => negb (truthy_opt (wishCache w !! wishKey dateISO n))) names).

Lemma filter_length_le {A} (f f' : A -> bool) (l : list A) :
  (forall x, f' x = true -> f x = true) ->
  (length (List.filter f' l) <= length (List.filter f l))%nat.
Proof.
  intros Himp. induction l as [|y l IH]; simpl; [lia |].
  destruct (f' y) eqn:Hy'.
  - rewrite (Himp y Hy'). simpl. lia.
  - destruct (f y); simpl; lia.
Qed.

Lemma filter_length_lt {A} (f f' : A -> bool) (l : list A) (x : A) :
  (forall y, f' y = true -> f y = true) ->
  In x l -> f x = true -> f' x = false ->
  (length (List.filter f' l) < length (List.filter f l))%nat.
Proof.
  intros Himp Hin Hx Hx'. induction l as [|y l IH]; [done |].
  pose proof (filter_length_le f f' l Himp) as Hle. simpl.
  destruct Hin as [-> | Hin].
  - rewrite Hx, Hx'. simpl. lia.
  - specialize (IH Hin). destruct (f' y) eqn:Hy'.
    + rewrite (Himp y Hy'). simpl. lia.
    + destruct (f y); simpl; lia.
Qed.

(** From [w] to [w'] the non-empty entries are kept, and each call of the
    text provider is paid for by a name that is no longer uncached. *)
Definition pays (dateISO : string) (names : list string) (w w' : World) : Prop :=
  cache_stable w w' /\
  (gemini_calls (trace w') + uncached dateISO names w'
   <= gemini_calls (trace w) + uncached dateISO names w)%nat.

#[local] Instance pays_preorder (dateISO : string) (names : list string) :
  PreOrder (pays dateISO names).
Proof.
  split.
  - intros w. split; [reflexivity | lia].
  - intros w1 w2 w3 [S12 C12] [S23 C23]. split; [by etransitivity | lia].
Qed.

Lemma uncached_stable (dateISO : string) (names : list string) (w w' : World) :
  cache_stable w w' -> (uncached dateISO names w' <= uncached dateISO names w)%nat.
Proof.
  intros Hst. apply filter_length_le. intros n Hn.
  apply negb_true_iff in Hn. apply negb_true_iff.
  destruct (wishCache w !! wishKey dateISO n) as [v|] eqn:Hk; [| done]. simpl.
  destruct (Js.truthy v) eqn:Hv; [| done].
  by rewrite (Hst _ _ Hk Hv) in Hn; simpl in Hn; rewrite Hv in Hn.
Qed.

Definition no_gemini (e : Event) : Prop :=
  match e with CallGemini _ => False | _ => True end.

Lemma gemini_calls_none (evs : list Event) :
  Forall no_gemini evs -> gemini_calls evs = 0%nat.
Proof. induction 1 as [|e evs He _ IH]; [done |]. by destruct e. Qed.

(** A step that keeps the non-empty entries and does not call the text
    provider. *)
Lemma pays_quiet (dateISO : string) (names : list string) (w w' : World) :
  cache_stable w w' -> appends no_gemini w w' -> pays dateISO names w w'.
Proof.
  intros Hst (evs & Htr & Hq). split; [done |].
  rewrite Htr, gemini_calls_app, (gemini_calls_none evs Hq).
  pose proof (uncached_stable dateISO names w w' Hst). lia.
Qed.

Lemma makeAIWish_calls (env : Env) (dateISO name faith : string) (w : World) :
  let res := makeAIWish env dateISO name faith w in
  (truthy_opt (wishCache w !! wishKey dateISO name) = true -> res.2 = w) /\
  (gemini_calls (trace res.2) <= gemini_calls (trace w) + 1)%nat.
Proof.
  cbv zeta. split.
  - intros Hc. destruct (wishCache w !! wishKey dateISO name) as [v|] eqn:Hk; [| done].
    by rewrite (makeAIWish_hit env dateISO name faith w v Hk Hc).
  - destruct (truthy_opt (wishCache w !! wishKey dateISO name)) eqn:Hc.
    + destruct (wishCache w !! wishKey dateISO name) as [v|] eqn:Hk; [| done].
      rewrite (makeAIWish_hit env dateISO name faith w v Hk Hc). simpl. lia.
    + unfold makeAIWish, bind, cacheGet. fold (wishKey dateISO name). rewrite Hc.
      destruct (genAI env) as [model|]; simpl.
      * destruct (accepted _); simpl;
          rewrite <- app_assoc, gemini_calls_app;
          unfold gemini_calls at 2; simpl; lia.
      * rewrite gemini_calls_app. unfold gemini_calls at 2. simpl. lia.
Qed.

Lemma makeAIWish_pays (env : Env) (dateISO name faith : string) (names : list string) :
  In name names -> keeps (pays dateISO names) (makeAIWish env dateISO name faith).
Proof.
  intros Hin w.
  pose proof (makeAIWish_cache_stable env dateISO name faith w) as Hst.
  destruct (makeAIWish_calls env dateISO name faith w) as [Hhit Hcalls].
  destruct (truthy_opt (wishCache w !! wishKey dateISO name)) eqn:Hc.
  { rewrite (Hhit eq_refl). reflexivity. }
  split; [done |].
  destruct (makeAIWish_cached env dateISO name faith w) as [Hk Hv].
  assert (Hlt : (uncached dateISO names (makeAIWish env dateISO name faith w).2
                 < uncached dateISO names w)%nat).
  { apply (filter_length_lt _ _ names name); [| done | by rewrite Hc |].
    - intros n Hn. apply negb_true_iff in Hn. apply negb_true_iff.
      destruct (wishCache w !! wishKey dateISO n) as [v|] eqn:Hkn; [| done]. simpl.
      destruct (Js.truthy v) eqn:Hvn; [| done].
      by rewrite (Hst _ _ Hkn Hvn) in Hn; simpl in Hn; rewrite Hvn in Hn.
    - rewrite Hk. simpl. by rewrite Hv. }
  lia.
Qed.

Ltac no_gemini_tac :=
  repeat first
    [ apply appends_emit; exact I
    | apply appends_cacheSet; intros; exact I
    | apply appends_setConfig
    | apply appends_saveConfigs; intros; exact I
    | keeps_step ].

Lemma getFestivalImage_no_gemini (env : Env) (dateISO name faith : string) :
  keeps (appends no_gemini) (getFestivalImage env dateISO name faith).
Proof. unfold getFestivalImage, queryForImage, fetchPexelsImage. no_gemini_tac. Qed.

Lemma findChannel_no_gemini (env : Env) (g : Guild) (channelId : option string) :
  keeps (appends no_gemini) (findChannel env g channelId).
Proof. unfold findChannel, resolveChannel. no_gemini_tac. Qed.

Lemma runGuild_pays (env : Env) (now : Now) (raw : list Festival) (g : Guild) :
  keeps (pays (dateISO now) (List.map name raw)) (runGuild env now raw g).
Proof.
  intros w. rewrite runGuild_run. cbv zeta.
  set (cfg := cfgFor (guildConfigs w) (g_id g)).
  destruct (List.filter (keep cfg) raw) as [|f festivals] eqn:Hkept; [reflexivity |].
  pose proof (findChannel_no_gemini env g (channelId cfg) w) as Ha.
  assert (Hs : cache_stable w (findChannel env g (channelId cfg) w).2).
  { unfold findChannel.
    refine (keeps_bind _ _ _ (resolveChannel_cache_stable _ _ _) _ w).
    intros r. refine (keeps_ret _ _). }
  destruct (findChannel env g (channelId cfg) w) as [[chan|] wf]; cbn [fst snd] in *.
  - etransitivity; [by apply pays_quiet |].
    assert (Hposted : keeps (pays (dateISO now) (List.map name raw))
              (forEach (f :: festivals) (postFestival env now g chan (mentionOf cfg)))).
    { refine (keeps_forEach _ _ _ _). intros fest Hin. unfold postFestival.
      refine (keeps_bind _ _ _ (makeAIWish_pays _ _ _ _ _ _) _).
      - rewrite <- Hkept in Hin. apply filter_In in Hin as [Hin _]. by apply in_map.
      - intros wishText w1. unfold bind.
        pose proof (getFestivalImage_cache_stable env (dateISO now) (name fest)
                      (classifyFaith (name fest)) w1) as Hs2.
        pose proof (getFestivalImage_no_gemini env (dateISO now) (name fest)
                      (classifyFaith (name fest)) w1) as Ha2.
        destruct (getFestivalImage env _ _ _ w1) as [imageUrl w2]. cbn [snd] in *.
        etransitivity; [by apply pays_quiet |].
        unfold buildEmbed. destruct (embed_accepted env _); [| reflexivity].
        apply pays_quiet; [by apply cache_stable_same |].
        eexists [_]. split; [done | by constructor]. }
    specialize (Hposted wf).
    destruct (forEach (f :: festivals) _ wf) as [[|] w2]; cbn [fst snd] in *;
      [| exact Hposted].
    etransitivity; [exact Hposted |].
    apply pays_quiet; [by apply cache_stable_same |].
    eexists [_]. split; [done | by constructor].
  - by apply pays_quiet.
Qed.

(** X17: in a daily run the text provider is called at most once for
    each festival of the day whose wish is not yet in the cache, however
    many guilds the wish is posted to: the number of calls is bounded by
    the number of festivals of the day. *)
Theorem provider_calls_bounded
    (env : Env) (now : Now) (raw : list Festival) (guilds : list Guild) (w : World) :
  let w' := (runDaily env now raw guilds w).2 in
  (gemini_calls (trace w')
   <= gemini_calls (trace w) + uncached (dateISO now) (List.map name raw) w)%nat /\
  (uncached (dateISO now) (List.map name raw) w <= length raw)%nat.
Proof.
  cbv zeta. split.
  - assert (Hrun : keeps (pays (dateISO now) (List.map name raw))
                         (runDaily env now raw guilds)).
    { refine (keeps_runDaily _ _ _ _ _ _). apply runGuild_pays. }
    destruct (Hrun w) as [_ Hcost]. lia.
  - unfold uncached. etransitivity; [apply List.filter_length_le |].
    by rewrite length_map.
Qed.
